(** * CodeCraft AI Agent: the streaming renderer and the two request panels

    A shallow embedding of [src/index.tsx]: the credential lookup
    [getGenAI], the fence/bold renderer [SimpleMarkdownRenderer], the
    generation panel ([generateCode] and its button) and the chat panel
    ([initChat], [sendMessage]).

    JavaScript strings are sequences of UTF-16 code units, and every string
    operation the source uses ([split], [trim], [indexOf], [substring],
    [slice], [startsWith], [endsWith], the regular expression [.]) works on
    code units, so a string is modelled as a list of code units. *)

From Stdlib Require Import String Ascii.
From stdpp Require Import base numbers option list.

Local Open Scope N_scope.

(** ** JavaScript strings *)

Definition char : Type := N.
Definition jsstring : Type := list char.

(** A source literal (all literals of the source are ASCII). *)
Definition lit (s : string) : jsstring :=
  (fun a => N_of_ascii a) <$> list_ascii_of_string s.

Definition LF : char := 10.
Definition BACKTICK : char := 96.
Definition ASTERISK : char := 42.

(** [ToBoolean] on a string, and on a [string | undefined]. *)
Definition truthy (s : jsstring) : bool :=
  match s with [] => false | _ => true end.

Definition truthyOpt (o : option jsstring) : bool :=
  match o with Some s => truthy s | None => false end.

(** [a || b] on [string | undefined]. *)
Definition jsOr (a b : option jsstring) : option jsstring :=
  if truthyOpt a then a else b.

(** [o || d] with a string default. *)
Definition orDefault (o : option jsstring) (d : jsstring) : jsstring :=
  match o with
  | Some s => if truthy s then s else d
  | None => d
  end.

(** ECMAScript LineTerminator code points. *)
Definition isLineTerminator (c : char) : bool :=
  (c =? 10) || (c =? 13) || (c =? 8232) || (c =? 8233).

(** ECMAScript WhiteSpace and LineTerminator, the set [trim] strips. *)
Definition isWhiteSpace (c : char) : bool :=
  (c =? 9) || (c =? 11) || (c =? 12) || (c =? 32) || (c =? 160)
  || (c =? 5760) || ((8192 <=? c) && (c <=? 8202))
  || (c =? 8239) || (c =? 8287) || (c =? 12288) || (c =? 65279)
  || isLineTerminator c.

Fixpoint trimStart (s : jsstring) : jsstring :=
  match s with
  | c :: s' => if isWhiteSpace c then trimStart s' else s
  | [] => []
  end.

Definition trimEnd (s : jsstring) : jsstring :=
  reverse (trimStart (reverse s)).

Definition trim (s : jsstring) : jsstring := trimEnd (trimStart s).

(** [s.indexOf(c)] for a one-character search string: [-1] when absent. *)
Fixpoint indexOf (s : jsstring) (c : char) : Z :=
  match s with
  | [] => (-1)%Z
  | d :: s' =>
      if d =? c then 0%Z
      else let i := indexOf s' c in
           if (i <? 0)%Z then (-1)%Z else (i + 1)%Z
  end.

Definition clampIndex (len : nat) (i : Z) : nat :=
  Nat.min (Z.to_nat i) len.

(** [s.substring(start, end)]; [None] stands for an omitted [end]. Both
    bounds are clamped to [0 .. length] and swapped when out of order. *)
Definition substring (s : jsstring) (start : Z) (end_ : option Z) : jsstring :=
  let len := length s in
  let intStart := clampIndex len start in
  let intEnd := match end_ with Some e => clampIndex len e | None => len end in
  let from := Nat.min intStart intEnd in
  let to := Nat.max intStart intEnd in
  take (to - from)%nat (drop from s).

(** [s.slice(start, end)]: negative bounds count from the end. *)
Definition sliceIndex (len : nat) (i : Z) : nat :=
  if (i <? 0)%Z then Z.to_nat (Z.max (Z.of_nat len + i) 0)
  else Nat.min (Z.to_nat i) len.

Definition slice (s : jsstring) (start end_ : Z) : jsstring :=
  let len := length s in
  let from := sliceIndex len start in
  let to := sliceIndex len end_ in
  take (to - from)%nat (drop from s).

Fixpoint startsWith (s p : jsstring) {struct p} : bool :=
  match p, s with
  | [], _ => true
  | _ :: _, [] => false
  | a :: p', b :: s' => (a =? b) && startsWith s' p'
  end.

Definition endsWith (s p : jsstring) : bool :=
  startsWith (reverse s) (reverse p).

(** ** Regular-expression splits

    [String.prototype.split] with a regular expression scans the positions
    [q] left to right; a match at [q] closes the current piece, pushes the
    captures and resumes after the match; otherwise [q] advances by one. The
    [g] flag is not consulted. *)

Definition consHead (c : char) (ps : list jsstring) : list jsstring :=
  match ps with
  | p :: ps' => (c :: p) :: ps'
  | [] => [[c]]
  end.

(** [content.split(/```/g)] *)
Fixpoint splitFence (s : jsstring) : list jsstring :=
  match s with
  | [] => [[]]
  | c1 :: s1 =>
      match s1 with
      | c2 :: c3 :: s3 =>
          if (c1 =? BACKTICK) && (c2 =? BACKTICK) && (c3 =? BACKTICK)
          then [] :: splitFence s3
          else consHead c1 (splitFence s1)
      | _ => consHead c1 (splitFence s1)
      end
  end.

(** The bold pattern of the source is: two asterisks, a lazy run of [.],
    two asterisks. [boldBody] reads what follows the opening marker: the
    shortest run of non-line-terminators followed by two asterisks, and
    returns that run. *)
Fixpoint boldBody (s : jsstring) : option jsstring :=
  match s with
  | c1 :: s1 =>
      match s1 with
      | c2 :: _ =>
          if (c1 =? ASTERISK) && (c2 =? ASTERISK) then Some []
          else if isLineTerminator c1 then None
          else (c1 ::.) <$> boldBody s1
      | [] => None
      end
  | [] => None
  end.

(** A match of the bold pattern anchored at the start of [s]: the matched
    text. *)
Definition matchBold (s : jsstring) : option jsstring :=
  match s with
  | c1 :: c2 :: s2 =>
      if (c1 =? ASTERISK) && (c2 =? ASTERISK)
      then (fun body => [ASTERISK; ASTERISK] ++ body ++ [ASTERISK; ASTERISK])
             <$> boldBody s2
      else None
  | _ => None
  end.

(** [part.split] on the bold pattern wrapped in one capture group: [skip]
    counts the code units of the current match still to be passed over. The
    capture group is the whole match, so each match is pushed once, between
    the pieces around it. *)
Fixpoint splitBoldFrom (skip : nat) (s : jsstring) : list jsstring :=
  match s with
  | [] => [[]]
  | c :: s' =>
      match skip with
      | S k => splitBoldFrom k s'
      | O =>
          match matchBold s with
          | Some m => [] :: m :: splitBoldFrom (length m - 1) s'
          | None => consHead c (splitBoldFrom 0 s')
          end
      end
  end.

Definition splitBold (s : jsstring) : list jsstring := splitBoldFrom 0 s.

(** ** The rendered tree *)

Inductive Inline : Type :=
| Span (text : jsstring)
| Strong (text : jsstring).

Inductive Block : Type :=
| CodeBlock (language code : jsstring)
| TextBlock (children : list Inline).

(** The inner [textParts.map] callback. *)
Definition renderSubPart (subPart : jsstring) : Inline :=
  if startsWith subPart (lit "**") && endsWith subPart (lit "**")
  then Strong (slice subPart 2 (-2))
  else Span subPart.

(** The code branch of the [parts.map] callback. *)
Definition renderCode (part : jsstring) : Block :=
  let firstLineIndex := indexOf part LF in
  if negb (firstLineIndex =? -1)%Z
  then CodeBlock (trim (substring part 0 (Some firstLineIndex)))
                 (trim (substring part (firstLineIndex + 1) None))
  else CodeBlock (lit "text") (trim part).

(** The text branch of the [parts.map] callback; [None] is [null]. *)
Definition renderText (part : jsstring) : option Block :=
  if negb (truthy (trim part)) then None
  else Some (TextBlock (renderSubPart <$> splitBold part)).

(** The [parts.map] callback. *)
Definition renderPart (index : nat) (part : jsstring) : option Block :=
  if (index mod 2 =? 1)%nat then Some (renderCode part) else renderText part.

(** The component: [None] is [return null], otherwise the children of the
    wrapping [div], one slot per part. *)
Definition SimpleMarkdownRenderer (content : jsstring)
  : option (list (option Block)) :=
  if negb (truthy content) then None
  else Some (imap renderPart (splitFence content)).

(** What reaches the screen: [null] renders nothing. *)
Definition segments (content : jsstring) : list Block :=
  match SimpleMarkdownRenderer content with
  | None => []
  | Some children => omap id children
  end.

(** ** Environment, errors and the model service *)

(** [process.env], as the source declares it. *)
Record ProcessEnv : Type := mkEnv {
  API_KEY : option jsstring;
  GEMINI_API_KEY : option jsstring
}.

(** A thrown value other than [null] and [undefined]; the handlers read
    only its [message], as [error.message || "Unknown error"] inside a
    template literal: [message] is the text that property renders to, and
    [None] when the value has no such property or a falsy one. *)
Record JsError : Type := mkError { message : option jsstring }.

Definition newError (msg : jsstring) : JsError := {| message := Some msg |}.

(** JavaScript can throw any value. On [null] and [undefined] reading a
    property throws in turn. *)
Inductive Nullish : Type := JsNull | JsUndefined.

Inductive Thrown : Type :=
| ThrownNullish (n : Nullish)
| ThrownValue (e : JsError).

Coercion ThrownValue : JsError >-> Thrown.

(** The TypeError of [error.message] on a nullish [error]. *)
Definition readMessageError (n : Nullish) : JsError :=
  newError
    (lit "Cannot read properties of "
     ++ match n with JsNull => lit "null" | JsUndefined => lit "undefined" end
     ++ lit " (reading 'message')").

(** One item of a response stream: [chunk.text] may be undefined. *)
Record Chunk : Type := mkChunk { chunkText : option jsstring }.

Inductive StreamEnd : Type :=
| EndOfStream
| StreamThrows (e : Thrown).

Record Stream : Type := mkStream { chunks : list Chunk; ending : StreamEnd }.

(** What the service answers to a streaming request: the awaited promise
    rejects, or it yields a stream. *)
Inductive Response : Type :=
| Rejected (e : Thrown)
| Streaming (s : Stream).

Record Client : Type := mkClient { clientApiKey : jsstring }.

Record Session : Type := mkSession {
  sessionApiKey : jsstring;
  sessionModel : jsstring;
  systemInstruction : jsstring
}.

(** Calls into the SDK, in the order they are made. *)
Inductive SdkCall : Type :=
| NewGoogleGenAI (apiKey : jsstring)
| ChatsCreate (model instruction : jsstring)
| GenerateContentStream (model contents : jsstring)
| SendMessageStream (msg : jsstring).

(** The two request shapes that reach the network. *)
Definition isNetworkCall (c : SdkCall) : bool :=
  match c with
  | GenerateContentStream _ _ | SendMessageStream _ => true
  | NewGoogleGenAI _ | ChatsCreate _ _ => false
  end.

(** ** Effects

    An async handler of a component runs on the component's state [St],
    logs its SDK calls, and completes normally or by a throw. [faulted]
    records a fault raised inside a state updater: React runs updaters while
    rendering, outside the handler's [try], so such a fault reaches the
    error boundary instead of the handler's [catch]. *)

Record Run (St : Type) : Type := mkRun {
  comp : St;
  calls : list SdkCall;
  faulted : bool
}.
Arguments mkRun {St} _ _ _.
Arguments comp {St} _.
Arguments calls {St} _.
Arguments faulted {St} _.

Inductive Completion (A : Type) : Type :=
| Normal (a : A)
| Throw (e : Thrown).
Arguments Normal {A} _.
Arguments Throw {A} _.

Definition Eff (St A : Type) : Type := Run St -> Completion A * Run St.

Definition ret {St A} (a : A) : Eff St A := fun r => (Normal a, r).

Definition bind {St A B} (m : Eff St A) (k : A -> Eff St B) : Eff St B :=
  fun r =>
    match m r with
    | (Normal a, r') => k a r'
    | (Throw e, r') => (Throw e, r')
    end.

Definition throw {St A} (e : Thrown) : Eff St A := fun r => (Throw e, r).

(** [try m catch (e) h] *)
Definition tryCatch {St A} (m : Eff St A) (h : Thrown -> Eff St A) : Eff St A :=
  fun r =>
    match m r with
    | (Normal a, r') => (Normal a, r')
    | (Throw e, r') => h e r'
    end.

(** [try m finally f]: [f] runs on every completion of [m]. *)
Definition tryFinally {St A} (m : Eff St A) (f : Eff St unit) : Eff St A :=
  fun r =>
    match m r with
    | (c, r') =>
        match f r' with
        | (Normal _, r'') => (c, r'')
        | (Throw e, r'') => (Throw e, r'')
        end
    end.

Definition gets {St A} (f : St -> A) : Eff St A :=
  fun r => (Normal (f (comp r)), r).

Definition modify {St} (f : St -> St) : Eff St unit :=
  fun r => (Normal tt, mkRun (f (comp r)) (calls r) (faulted r)).

Definition logCall {St} (c : SdkCall) : Eff St unit :=
  fun r => (Normal tt, mkRun (comp r) (calls r ++ [c]) (faulted r)).

Notation "'let!' x ':=' m 'in' k" := (bind m (fun x => k))
  (at level 10, x name, m at level 100, k at level 200, only parsing).
Notation "'run!' m 'in' k" := (bind m (fun _ => k))
  (at level 10, m at level 100, k at level 200, only parsing).

(** [for await (const chunk of stream) body], with the loop-carried local
    variable passed along. A stream that fails throws after the chunks it
    delivered. *)
Fixpoint forAwaitChunks {St A} (body : A -> Chunk -> Eff St A)
    (cs : list Chunk) (acc : A) : Eff St A :=
  match cs with
  | [] => ret acc
  | c :: cs' => let! acc' := body acc c in forAwaitChunks body cs' acc'
  end.

Definition forAwait {St A} (body : A -> Chunk -> Eff St A)
    (s : Stream) (acc : A) : Eff St A :=
  let! acc' := forAwaitChunks body (chunks s) acc in
  match ending s with
  | EndOfStream => ret acc'
  | StreamThrows e => throw e
  end.

(** [await] of a streaming request. *)
Definition awaitResponse {St} (reply : Response) : Eff St Stream :=
  match reply with
  | Rejected e => throw e
  | Streaming s => ret s
  end.

(** ** getGenAI *)

Definition configErrorMessage : jsstring :=
  lit "Configuration Error: The API_KEY or GEMINI_API_KEY environment variable is missing. Please add it in your Vercel/Netlify settings.".

Definition getGenAI {St} (env : ProcessEnv) : Eff St Client :=
  let apiKey := jsOr (API_KEY env) (GEMINI_API_KEY env) in
  match apiKey with
  | Some key =>
      if negb (truthy key) then throw (newError configErrorMessage)
      else run! logCall (NewGoogleGenAI key) in ret (mkClient key)
  | None => throw (newError configErrorMessage)
  end.

Definition MODEL : jsstring := lit "gemini-2.5-flash".

(** ** The code generation panel *)

Record GenState : Type := mkGen {
  description : jsstring;
  language : jsstring;
  loading : bool;
  output : option jsstring
}.

Definition setLoading (b : bool) : Eff GenState unit :=
  modify (fun st => mkGen (description st) (language st) b (output st)).

Definition setOutput (o : jsstring) : Eff GenState unit :=
  modify (fun st => mkGen (description st) (language st) (loading st) (Some o)).

(** The instruction template of [generateCode]. *)
Definition generatePrompt (language description : jsstring) : jsstring :=
  lit "Act as an expert coding tutor for beginners.
      Task: Write a " ++ language ++ lit " program that " ++ description ++ lit ".
      
      STRICT REQUIREMENTS:
      1. SIMPLICITY IS PRIORITY: Use the absolute simplest logic and standard libraries. Avoid advanced concepts (like list comprehensions, heavy modularization, or external packages) unless strictly necessary.
      2. ZERO ERRORS: The code MUST be 100% correct, compilable, and runnable. Double-check syntax.
      3. LINE-BY-LINE COMMENTS: Add clear, simple comments to almost every line explaining what it does.
      4. EXPLANATION: After the code, explain the logic in plain English as if teaching a 10-year-old.
      5. FORMAT: Provide the code inside a markdown code block.".

Definition unknownError : jsstring := lit "Unknown error".

(** The text [generateCode] shows for a caught error. *)
Definition generateDiagnostic (errorMsg : jsstring) : jsstring :=
  lit "**CONFIGURATION ERROR**" ++ [LF; LF] ++ errorMsg ++ [LF; LF]
  ++ lit "To fix this on Vercel:" ++ [LF]
  ++ lit "1. Go to **Settings** > **Environment Variables**." ++ [LF]
  ++ lit "2. Add `API_KEY` or `GEMINI_API_KEY` with your Google Gemini API Key."
  ++ [LF]
  ++ lit "3. Redeploy your project.".

(** [ai.models.generateContentStream] followed by its [await]. *)
Definition generateContentStream (ai : Client) (model contents : jsstring)
    (reply : Response) : Eff GenState Stream :=
  run! logCall (GenerateContentStream model contents) in awaitResponse reply.

(** The body of the generation loop; [fullText] is the loop-carried local. *)
Definition generateChunk (fullText : jsstring) (chunk : Chunk)
  : Eff GenState jsstring :=
  match chunkText chunk with
  | Some text =>
      if truthy text
      then let fullText' := fullText ++ text in
           run! setOutput fullText' in ret fullText'
      else ret fullText
  | None => ret fullText
  end.

(** The [try] block of [generateCode]. *)
Definition generateTry (env : ProcessEnv) (reply : Response)
    (language description : jsstring) : Eff GenState unit :=
  let! ai := getGenAI env in
  let prompt := generatePrompt language description in
  let! responseStream := generateContentStream ai MODEL prompt reply in
  let! _ := forAwait generateChunk responseStream [] in
  ret tt.

(** The [catch] block of [generateCode]: [error.message] throws when the
    caught value is nullish, before the buffer is set. *)
Definition generateCatch (error : Thrown) : Eff GenState unit :=
  match error with
  | ThrownNullish n => throw (readMessageError n)
  | ThrownValue err =>
      let errorMsg := orDefault (message err) unknownError in
      setOutput (generateDiagnostic errorMsg)
  end.

Definition generateCode (env : ProcessEnv) (reply : Response)
  : Eff GenState unit :=
  let! description := gets description in
  let! language := gets language in
  if negb (truthy (trim description)) then ret tt
  else
    run! setLoading true in
    run! setOutput [] in
    tryFinally
      (tryCatch (generateTry env reply language description) generateCatch)
      (setLoading false).

(** The generate button: [disabled] when loading or when the description is
    blank; a disabled button dispatches no click. *)
Definition generateDisabled (st : GenState) : bool :=
  loading st || negb (truthy (trim (description st))).

Definition clickGenerate (env : ProcessEnv) (reply : Response)
  : Eff GenState unit :=
  fun r => if generateDisabled (comp r) then (Normal tt, r)
           else generateCode env reply r.

(** The console of the panel renders [output || ''] on every pass. *)
Definition consoleView (st : GenState) : list Block :=
  segments (default [] (output st)).

(** ** The chat panel *)

Inductive Role : Type := user | model.

Record Entry : Type := mkEntry { role : Role; text : jsstring }.

Record ChatState : Type := mkChat {
  messages : list Entry;
  input : jsstring;
  isTyping : bool;
  chatSessionRef : option Session
}.

Definition CHAT_SYSTEM_PROMPT : jsstring :=
  lit "You are CodeCraft AI, an ultra-patient coding tutor for absolute beginners."
  ++ [LF; LF] ++ lit "STRICT RULES FOR EVERY RESPONSE:" ++ [LF]
  ++ lit "1. EXTREME SIMPLICITY: Explain everything as if the user is 10 years old. Use short sentences and no technical jargon."
  ++ [LF]
  ++ lit "2. BEGINNER CODE ONLY: When providing code, use the most basic, fundamental logic possible. Avoid shortcuts, advanced syntax, or 'clever' one-liners."
  ++ [LF]
  ++ lit "3. ALWAYS RUNNABLE: Provide complete, copy-pasteable code with all necessary imports and main functions."
  ++ [LF]
  ++ lit "4. NO LECTURES: Keep text explanations short and direct." ++ [LF]
  ++ lit "5. BE SUPPORTIVE: Encourage the user.".

Definition setInput (s : jsstring) : Eff ChatState unit :=
  modify (fun st => mkChat (messages st) s (isTyping st) (chatSessionRef st)).

Definition setIsTyping (b : bool) : Eff ChatState unit :=
  modify (fun st => mkChat (messages st) (input st) b (chatSessionRef st)).

Definition setChatSession (s : Session) : Eff ChatState unit :=
  modify (fun st => mkChat (messages st) (input st) (isTyping st) (Some s)).

(** [setMessages(updater)]: the updater runs on the current transcript; a
    throw inside it is a rendering fault and leaves the transcript as it
    was. *)
Definition setMessages (updater : list Entry -> option (list Entry))
  : Eff ChatState unit :=
  fun r =>
    match updater (messages (comp r)) with
    | Some next =>
        (Normal tt,
         mkRun (mkChat next (input (comp r)) (isTyping (comp r))
                  (chatSessionRef (comp r)))
               (calls r) (faulted r))
    | None => (Normal tt, mkRun (comp r) (calls r) true)
    end.

(** [prev => [...prev, entry]] *)
Definition appendEntry (entry : Entry) (prev : list Entry)
  : option (list Entry) :=
  Some (prev ++ [entry]).

(** [prev => { newArr = [...prev]; newArr[newArr.length - 1].text =
    fullResponse; return newArr }]. On an empty transcript the index is
    [-1], the element is undefined and the assignment throws. *)
Definition overwriteLast (fullResponse : jsstring) (prev : list Entry)
  : option (list Entry) :=
  match last prev with
  | Some e =>
      Some (<[pred (length prev) := mkEntry (role e) fullResponse]> prev)
  | None => None
  end.

(** [ai.chats.create]: builds the session object, no request is sent. *)
Definition chatsCreate (ai : Client) : Eff ChatState Session :=
  run! logCall (ChatsCreate MODEL CHAT_SYSTEM_PROMPT) in
  ret (mkSession (clientApiKey ai) MODEL CHAT_SYSTEM_PROMPT).

Definition initChat (env : ProcessEnv) : Eff ChatState bool :=
  tryCatch
    (let! ai := getGenAI env in
     let! session := chatsCreate ai in
     run! setChatSession session in
     ret true)
    (fun e => ret false).

(** The mount effect. *)
Definition mountChat (env : ProcessEnv) : Eff ChatState unit :=
  run! initChat env in ret tt.

Definition missingKeyMessage : jsstring :=
  lit "Missing API_KEY or GEMINI_API_KEY environment variable.".

Definition nullSessionError : JsError :=
  newError (lit "Cannot read properties of null (reading 'sendMessageStream')").

(** The text [sendMessage] appends for a caught error. *)
Definition chatDiagnostic (errorMsg : jsstring) : jsstring :=
  lit "**CONFIGURATION ERROR**: " ++ errorMsg
  ++ lit ". Please check Vercel settings.".

(** [chatSessionRef.current.sendMessageStream] followed by its [await]. *)
Definition sendMessageStream (session : option Session) (userMsg : jsstring)
    (reply : Response) : Eff ChatState Stream :=
  match session with
  | Some _ => run! logCall (SendMessageStream userMsg) in awaitResponse reply
  | None => throw nullSessionError
  end.

(** The body of the chat loop; [fullResponse] is the loop-carried local. *)
Definition chatChunk (fullResponse : jsstring) (chunk : Chunk)
  : Eff ChatState jsstring :=
  let fullResponse' := fullResponse ++ default [] (chunkText chunk) in
  run! setMessages (overwriteLast fullResponse') in
  ret fullResponse'.

(** The [try] block of [sendMessage]. *)
Definition sendTry (env : ProcessEnv) (reply : Response) (userMsg : jsstring)
  : Eff ChatState unit :=
  let! current := gets chatSessionRef in
  run! (if negb (bool_decide (is_Some current))
        then let! success := initChat env in
             if negb success
             then throw (newError missingKeyMessage)
             else ret tt
        else ret tt) in
  let! session := gets chatSessionRef in
  let! resultStream := sendMessageStream session userMsg reply in
  run! setMessages (appendEntry (mkEntry model [])) in
  let! _ := forAwait chatChunk resultStream [] in
  ret tt.

(** The [catch] block of [sendMessage]: [e.message] throws when the caught
    value is nullish, before the entry is appended. *)
Definition sendCatch (e : Thrown) : Eff ChatState unit :=
  match e with
  | ThrownNullish n => throw (readMessageError n)
  | ThrownValue err =>
      let errorMsg := orDefault (message err) unknownError in
      setMessages (appendEntry (mkEntry model (chatDiagnostic errorMsg)))
  end.

Definition sendMessage (env : ProcessEnv) (reply : Response)
  : Eff ChatState unit :=
  let! input := gets input in
  if negb (truthy (trim input)) then ret tt
  else
    let userMsg := input in
    run! setMessages (appendEntry (mkEntry user userMsg)) in
    run! setInput [] in
    run! setIsTyping true in
    tryFinally
      (tryCatch (sendTry env reply userMsg) sendCatch)
      (setIsTyping false).

(** The send button is [disabled] when the input is blank or the typing
    flag is set; the Enter key calls [sendMessage] with no such test. *)
Definition sendDisabled (st : ChatState) : bool :=
  negb (truthy (trim (input st))) || isTyping st.

Definition clickSend (env : ProcessEnv) (reply : Response)
  : Eff ChatState unit :=
  fun r => if sendDisabled (comp r) then (Normal tt, r)
           else sendMessage env reply r.

Definition pressEnter (env : ProcessEnv) (reply : Response)
  : Eff ChatState unit :=
  sendMessage env reply.

(** The text field: [onChange] sets the input. *)
Definition typeInput (s : jsstring) : Eff ChatState unit := setInput s.

(** A freshly created component, before its mount effect. *)
Definition initialChat : ChatState := mkChat [] [] false None.
Definition initialGen : GenState := mkGen [] (lit "C") false None.

Definition start {St} (st : St) : Run St := mkRun st [] false.

(** User actions on the mounted chat panel, each run to completion before
    the next. *)
Inductive ChatAction : Type :=
| TypeInput (s : jsstring)
| ClickSend (reply : Response)
| PressEnter (reply : Response).

Definition chatAction (env : ProcessEnv) (a : ChatAction)
  : Eff ChatState unit :=
  match a with
  | TypeInput s => typeInput s
  | ClickSend reply => clickSend env reply
  | PressEnter reply => pressEnter env reply
  end.

Definition stepChat (env : ProcessEnv) (r : Run ChatState) (a : ChatAction)
  : Run ChatState :=
  snd (chatAction env a r).

(** The panel after its mount effect and a history of actions. *)
Definition chatAfter (env : ProcessEnv) (history : list ChatAction)
  : Run ChatState :=
  foldl (stepChat env) (snd (mountChat env (start initialChat))) history.

(** Blank: empty or made of white space only. *)
Definition blank (s : jsstring) : bool := forallb isWhiteSpace s.

(** The texts a stream delivers, with [chunk.text || ''] for a chunk that
    has none. *)
Definition chunkTexts (cs : list Chunk) : list jsstring :=
  (fun c => default [] (chunkText c)) <$> cs.

(** [parts.join] on the fence delimiter, the inverse of the split. *)
Definition FENCE : jsstring := [BACKTICK; BACKTICK; BACKTICK].

Fixpoint joinFence (parts : list jsstring) : jsstring :=
  match parts with
  | [] => []
  | p :: ps => match ps with [] => p | _ :: _ => p ++ FENCE ++ joinFence ps end
  end.

(** Some recognized environment variable holds a non-empty value. *)
Definition hasCredential (env : ProcessEnv) : bool :=
  truthyOpt (API_KEY env) || truthyOpt (GEMINI_API_KEY env).

(** A send can reach the service: the session exists, or it can be made. *)
Definition sessionAvailable (env : ProcessEnv) (st : ChatState) : bool :=
  bool_decide (is_Some (chatSessionRef st)) || hasCredential env.

(** A run with one more SDK call logged. *)
Definition logged {St} (r : Run St) (c : SdkCall) : Run St :=
  mkRun (comp r) (calls r ++ [c]) (faulted r).

(** The bold marker. *)
Definition MARK : jsstring := [ASTERISK; ASTERISK].

(** A slot of the rendered tree is a code segment, or prose (a text block,
    or nothing for a suppressed chunk). *)
Definition isCode (slot : option Block) : bool :=
  match slot with Some (CodeBlock _ _) => true | _ => false end.

Definition isProse (slot : option Block) : bool :=
  match slot with Some (CodeBlock _ _) => false | _ => true end.

(** The substring up to the first line break (all of [s] when there is
    none) and the remainder after that line break, in the words of the
    specification. *)
Fixpoint beforeLineBreak (s : jsstring) : jsstring :=
  match s with
  | [] => []
  | c :: s' => if c =? LF then [] else c :: beforeLineBreak s'
  end.

Fixpoint afterLineBreak (s : jsstring) : jsstring :=
  match s with
  | [] => []
  | c :: s' => if c =? LF then s' else afterLineBreak s'
  end.

Arguments lit : simpl never.
Arguments generatePrompt : simpl never.
Arguments generateDiagnostic : simpl never.
Arguments chatDiagnostic : simpl never.

(** ** The rest of the components *)

(** [s.includes(p)] *)
Fixpoint includes (s p : jsstring) : bool :=
  startsWith s p
  || match s with
     | [] => false
     | _ :: s' => includes s' p
     end.

(** The text a rendered inline element shows. *)
Definition inlineText (i : Inline) : jsstring :=
  match i with
  | Span text => text
  | Strong text => text
  end.

(** The text a prose block shows, span after span. *)
Definition proseText (children : list Inline) : jsstring :=
  concat (inlineText <$> children).

(** The code units of [s] other than the asterisk. *)
Definition withoutAsterisks (s : jsstring) : jsstring :=
  filter (fun c => c <> ASTERISK) s.

(** The header label of [CodeBlock]: [language || 'code']. *)
Definition codeBlockLabel (language : jsstring) : jsstring :=
  if truthy language then language else lit "code".

(** The copy button of [CodeBlock]. [handleCopy] asks the clipboard to take
    the code; when that promise resolves it sets [copied] and arms a timer
    that clears it; when it rejects it only logs. [timers] counts the armed
    timers that have not fired yet. *)
Record CopyState : Type := mkCopy { copied : bool; timers : nat }.

Inductive CopyEvent : Type :=
| ClipboardResolves
| ClipboardRejects
| TimerFires.

Definition copyStep (st : CopyState) (ev : CopyEvent) : CopyState :=
  match ev with
  | ClipboardResolves => mkCopy true (S (timers st))
  | ClipboardRejects => st
  | TimerFires =>
      match timers st with
      | S n => mkCopy false n
      | O => st
      end
  end.

Definition initialCopy : CopyState := mkCopy false 0.

(** What the output console of the generation panel shows: the placeholder
    with the suggestions ([!output && !loading]), the tree of the renderer
    on [output || ''], and the bouncing dots ([loading && !output]). *)
Record ConsolePane : Type := mkPane {
  placeholderShown : bool;
  tree : option (list (option Block));
  dotsShown : bool
}.

Definition consolePane (st : GenState) : ConsolePane :=
  mkPane (negb (truthyOpt (output st)) && negb (loading st))
         (SimpleMarkdownRenderer (default [] (output st)))
         (loading st && negb (truthyOpt (output st))).

(** The number of parts of the pane that are on screen. *)
Definition paneCount (p : ConsolePane) : nat :=
  (if placeholderShown p then 1 else 0)
  + (match tree p with Some _ => 1 | None => 0 end)
  + (if dotsShown p then 1 else 0).

Definition isChatsCreate (c : SdkCall) : bool :=
  match c with ChatsCreate _ _ => true | _ => false end.

(** The messages of the send requests in a call log, and the texts of the
    user entries of a transcript, both in order. *)
Definition sentMessages (log : list SdkCall) : list jsstring :=
  omap (fun c => match c with SendMessageStream m => Some m | _ => None end)
       log.

Definition userTexts (ms : list Entry) : list jsstring :=
  omap (fun e => match role e with user => Some (text e) | model => None end)
       ms.

(** The credential [getGenAI] settles on, if any. *)
Definition resolvedKey (env : ProcessEnv) : option jsstring :=
  match jsOr (API_KEY env) (GEMINI_API_KEY env) with
  | Some key => if truthy key then Some key else None
  | None => None
  end.

(** What holds of the chat panel between two actions: the typing flag is
    off, no updater has faulted, the session is the one made from the
    resolved credential (none without a credential), the session was
    created once if at all, and with a credential the requests sent are
    the user entries, in order. *)
Definition chatInvariant (env : ProcessEnv) (r : Run ChatState) : Prop :=
  isTyping (comp r) = false
  /\ faulted r = false
  /\ chatSessionRef (comp r)
     = (fun key => mkSession key MODEL CHAT_SYSTEM_PROMPT) <$> resolvedKey env
  /\ length (filter (fun c => isChatsCreate c = true) (calls r))
     = (if hasCredential env then 1 else 0)%nat
  /\ (hasCredential env = true ->
      sentMessages (calls r) = userTexts (messages (comp r))).

(** What a reply throws into the handler, if anything: the rejection of the
    awaited request, or the failure of the stream after its chunks. *)
Definition thrownBy (reply : Response) : option Thrown :=
  match reply with
  | Rejected e => Some e
  | Streaming s =>
      match ending s with
      | EndOfStream => None
      | StreamThrows e => Some e
      end
  end.

(** The reply fails with [null] or [undefined]. *)
Definition failsNullish (reply : Response) : bool :=
  match thrownBy reply with
  | Some (ThrownNullish _) => true
  | _ => false
  end.

(** What the [catch] block of [sendMessage] makes of a caught value: the
    diagnostic entry and a normal completion, or no entry and the TypeError
    of reading the message of a nullish value. *)
Definition caughtEntries (thrown : Thrown) : list Entry :=
  match thrown with
  | ThrownNullish _ => []
  | ThrownValue e =>
      [mkEntry model (chatDiagnostic (orDefault (message e) unknownError))]
  end.

Definition caughtCompletion (thrown : option Thrown) : Completion unit :=
  match thrown with
  | Some (ThrownNullish n) => Throw (readMessageError n)
  | _ => Normal tt
  end.

(** Some send of the history got a reply that failed with a nullish
    value. *)
Definition historyNullish (history : list ChatAction) : bool :=
  existsb (fun a => match a with
                    | TypeInput _ => false
                    | ClickSend reply | PressEnter reply => failsNullish reply
                    end)
          history.

(** * Properties *)

(** ** Strings *)

Section Strings.

Implicit Types (s t : jsstring) (c : char).

Lemma trimStart_blank s : trimStart s = [] <-> blank s = true.
Proof.
  induction s as [|c s IH]; simpl; [done|].
  destruct (isWhiteSpace c); simpl; [done|]. split; discriminate.
Qed.

Lemma blank_app s t : blank (s ++ t) = blank s && blank t.
Proof. unfold blank. apply forallb_app. Qed.

Lemma blank_reverse s : blank (reverse s) = blank s.
Proof.
  induction s as [|c s IH]; [done|].
  rewrite reverse_cons, blank_app, IH. simpl.
  rewrite andb_true_r. apply andb_comm.
Qed.

(** What [trimStart] returns is empty or starts with a visible unit. *)
Lemma trimStart_head s c t : trimStart s = c :: t -> isWhiteSpace c = false.
Proof.
  induction s as [|d s IH]; simpl; [done|].
  destruct (isWhiteSpace d) eqn:Hd; [done|]. by intros [= <- _].
Qed.

Lemma trimStart_blank_self s : blank (trimStart s) = true -> trimStart s = [].
Proof.
  destruct (trimStart s) as [|c t] eqn:E; [done|].
  apply trimStart_head in E. simpl. by rewrite E.
Qed.

Lemma reverse_nil_inv s : reverse s = [] -> s = [].
Proof.
  intros H. apply (f_equal length) in H.
  rewrite length_reverse in H. by destruct s.
Qed.

(** [s.trim()] is the empty string exactly when [s] is blank. *)
Lemma trim_blank s : trim s = [] <-> blank s = true.
Proof.
  unfold trim, trimEnd. split.
  - intros H%reverse_nil_inv. apply trimStart_blank in H.
    rewrite blank_reverse in H. apply trimStart_blank_self in H.
    by apply trimStart_blank.
  - intros H%trimStart_blank. by rewrite H.
Qed.

Lemma truthy_trim s : truthy (trim s) = negb (blank s).
Proof.
  destruct (blank s) eqn:E.
  - apply trim_blank in E. by rewrite E.
  - destruct (trim s) eqn:T; [|done].
    apply trim_blank in T. congruence.
Qed.

End Strings.

(** ** The fence split *)

Section FenceSplit.

Implicit Types (s part : jsstring) (ps : list jsstring).

Lemma consHead_nonempty c ps : consHead c ps <> [].
Proof. by destruct ps. Qed.

Lemma splitFence_step c1 s1 :
  splitFence (c1 :: s1)
  = match s1 with
    | c2 :: c3 :: s3 =>
        if (c1 =? BACKTICK) && (c2 =? BACKTICK) && (c3 =? BACKTICK)
        then [] :: splitFence s3
        else consHead c1 (splitFence s1)
    | _ => consHead c1 (splitFence s1)
    end.
Proof. done. Qed.

Lemma splitFence_nonempty s : splitFence s <> [].
Proof.
  destruct s as [|c1 s1]; [done|]. rewrite splitFence_step.
  destruct s1 as [|c2 [|c3 s3]]; try apply consHead_nonempty.
  destruct (_ && _); [done|apply consHead_nonempty].
Qed.

Lemma joinFence_consHead c ps :
  ps <> [] -> joinFence (consHead c ps) = c :: joinFence ps.
Proof. destruct ps as [|p [|q ps]]; done. Qed.

Lemma joinFence_cons_nil ps :
  ps <> [] -> joinFence ([] :: ps) = FENCE ++ joinFence ps.
Proof. by destruct ps. Qed.

(** Joining the chunks with the delimiter gives the input back: the chunks
    are the stretches of the input between consecutive fences. *)
Lemma joinFence_splitFence s : joinFence (splitFence s) = s.
Proof.
  remember (length s) as n eqn:Hn.
  revert s Hn. induction (lt_wf n) as [n _ IH]. intros s ->.
  destruct s as [|c1 s1]; [done|].
  rewrite splitFence_step.
  assert (Hs1 : joinFence (consHead c1 (splitFence s1)) = c1 :: s1).
  { rewrite joinFence_consHead by apply splitFence_nonempty.
    f_equal. apply (IH (length s1)); simpl; [lia|done]. }
  destruct s1 as [|c2 [|c3 s3]]; [done|done|].
  destruct (_ && _) eqn:E; [|done].
  rewrite joinFence_cons_nil by apply splitFence_nonempty.
  rewrite (IH (length s3)) by (simpl; lia || done).
  apply andb_prop in E as [E E3]. apply andb_prop in E as [E1 E2].
  apply N.eqb_eq in E1, E2, E3. by subst.
Qed.

Lemma joinFence_snoc ps part :
  ps <> [] -> joinFence (ps ++ [part]) = joinFence ps ++ FENCE ++ part.
Proof.
  induction ps as [|p ps IH]; [done|]. intros _.
  destruct ps as [|q ps]; [done|].
  change (joinFence ((p :: q :: ps) ++ [part]))
    with (p ++ FENCE ++ joinFence ((q :: ps) ++ [part])).
  rewrite IH by done.
  change (joinFence (p :: q :: ps)) with (p ++ FENCE ++ joinFence (q :: ps)).
  by rewrite <- !app_assoc.
Qed.

Lemma odd_mod2 n : (n mod 2 =? 1)%nat = Nat.odd n.
Proof. rewrite <- Nat.bit0_mod, Nat.bit0_odd. by destruct (Nat.odd n). Qed.

Lemma renderCode_isCode part : isCode (Some (renderCode part)) = true.
Proof. unfold renderCode. by destruct (negb _). Qed.

Lemma renderText_isProse part : isProse (renderText part) = true.
Proof. unfold renderText. by destruct (negb _). Qed.

End FenceSplit.

(** ** The renderer *)

Section Renderer.

Implicit Types (content part : jsstring) (N : nat).

Lemma truthy_nonempty content : content <> [] -> truthy content = true.
Proof. by destruct content. Qed.

Lemma renderPart_odd N part :
  Nat.odd N = true -> renderPart N part = Some (renderCode part).
Proof. intros H. unfold renderPart. by rewrite odd_mod2, H. Qed.

Lemma renderPart_even N part :
  Nat.even N = true -> renderPart N part = renderText part.
Proof.
  intros H. unfold renderPart. rewrite odd_mod2, <- Nat.negb_even, H. done.
Qed.

(** C2. For every input, the [parts.map] callback makes the Nth chunk of the
    fence split a prose slot when N is even and a code segment when N is odd.
    The empty input renders nothing. For a non-empty input the renderer
    returns a tree with one slot per chunk, the Nth slot being that of the
    Nth chunk; when the last chunk has an odd index, the fence that opens it
    is never closed: the renderer still returns a tree, whose last slot is
    the code segment of that chunk, and the chunk is all of the input after
    that fence. *)
Theorem fence_parity content N part :
  splitFence content !! N = Some part ->
  (Nat.even N = true ->
   renderPart N part = renderText part
   /\ isProse (renderPart N part) = true)
  /\ (Nat.odd N = true ->
      renderPart N part = Some (renderCode part)
      /\ isCode (renderPart N part) = true)
  /\ (content = [] -> SimpleMarkdownRenderer content = None)
  /\ (content <> [] ->
      exists children,
        SimpleMarkdownRenderer content = Some children
        /\ length children = length (splitFence content)
        /\ children !! N = Some (renderPart N part)
        /\ (Nat.odd N = true -> S N = length (splitFence content) ->
            last children = Some (Some (renderCode part))
            /\ exists before, content = before ++ FENCE ++ part)).
Proof.
  intros Hpart.
  assert (Hslot : imap renderPart (splitFence content) !! N
                  = Some (renderPart N part)).
  { by rewrite list_lookup_imap, Hpart. }
  split; [|split; [|split]].
  - intros Heven. rewrite renderPart_even by done.
    split; [done|apply renderText_isProse].
  - intros Hodd. rewrite renderPart_odd by done.
    split; [done|apply renderCode_isCode].
  - by intros ->.
  - intros Hne. exists (imap renderPart (splitFence content)).
    split; [|split; [|split]].
    + unfold SimpleMarkdownRenderer. by rewrite truthy_nonempty.
    + apply length_imap.
    + exact Hslot.
    + intros Hodd Hlast. split.
      * rewrite last_lookup, length_imap, <- Hlast. simpl.
        rewrite Hslot. by rewrite renderPart_odd.
      * exists (joinFence (take N (splitFence content))).
        rewrite <- joinFence_snoc.
        -- rewrite <- (take_S_r _ _ _ Hpart), take_ge by lia.
           symmetry. apply joinFence_splitFence.
        -- destruct N; [done|]. by destruct (splitFence content).
Qed.

(** The unterminated input [x```py]: its second chunk, [py], has index 1. *)
Lemma fence_parity_witness :
  isCode (renderPart 1 (lit "py")) = true
  /\ exists children,
       SimpleMarkdownRenderer (lit "x```py") = Some children
       /\ last children = Some (Some (renderCode (lit "py")))
       /\ exists before, lit "x```py" = before ++ FENCE ++ lit "py".
Proof.
  destruct (fence_parity (lit "x```py") 1 (lit "py") eq_refl)
    as (_ & Hodd & _ & Htree).
  split; [apply Hodd; reflexivity|].
  destruct Htree as (children & Hc & _ & _ & Hlast); [discriminate|].
  exists children. split; [exact Hc|]. apply Hlast; reflexivity.
Defined.

End Renderer.

(** ** Code chunks *)

Section CodeChunk.

Implicit Types (part s : jsstring) (N : nat).

Lemma indexOf_absent s : LF ∉ s -> indexOf s LF = (-1)%Z.
Proof.
  induction s as [|c s IH]; [done|]. intros Hnot. simpl.
  destruct (c =? LF) eqn:E.
  - apply N.eqb_eq in E. subst. exfalso. apply Hnot. left.
  - rewrite IH; [done|]. intros Hin. apply Hnot. by right.
Qed.

Lemma indexOf_nonneg_or_absent s : (-1 <= indexOf s LF)%Z.
Proof.
  induction s as [|c s IH]; simpl; [done|].
  destruct (c =? LF); [done|]. destruct (_ <? 0)%Z eqn:E; lia.
Qed.

(** At a line break, [indexOf] is the length of what precedes it, and the
    chunk is that prefix, the line break and the remainder. *)
Lemma indexOf_present s :
  LF ∈ s ->
  indexOf s LF = Z.of_nat (length (beforeLineBreak s))
  /\ s = beforeLineBreak s ++ LF :: afterLineBreak s.
Proof.
  induction s as [|c s IH]; [by intros ?%elem_of_nil|].
  intros Hin. simpl. destruct (c =? LF) eqn:E.
  - apply N.eqb_eq in E. by subst.
  - apply elem_of_cons in Hin as [Hc|Hin].
    { apply N.eqb_neq in E. congruence. }
    destruct (IH Hin) as [Hi Hs]. rewrite Hi. split.
    + destruct (_ <? 0)%Z eqn:L; simpl length; lia.
    + simpl. by rewrite <- Hs.
Qed.

Lemma substring_prefix s t i :
  i = Z.of_nat (length s) -> substring (s ++ t) 0 (Some i) = s.
Proof.
  intros ->. unfold substring, clampIndex. rewrite length_app.
  rewrite Nat2Z.id. simpl Z.to_nat.
  replace (Nat.min 0 _) with 0%nat by lia.
  replace (Nat.min (length s) _) with (length s) by lia.
  replace (Nat.min 0 (length s)) with 0%nat by lia.
  replace (Nat.max 0 (length s)) with (length s) by lia.
  rewrite Nat.sub_0_r, drop_0. apply take_app_length.
Qed.

Lemma substring_suffix s c t i :
  i = Z.of_nat (length s) -> substring (s ++ c :: t) (i + 1) None = t.
Proof.
  intros ->. unfold substring, clampIndex. rewrite length_app. simpl length.
  replace (Z.to_nat (Z.of_nat (length s) + 1)) with (S (length s)) by lia.
  replace (Nat.min (S (length s)) _) with (S (length s)) by lia.
  replace (Nat.min (S (length s)) _) with (S (length s)) by lia.
  replace (Nat.max (S (length s)) _)
    with (length s + S (length t))%nat by lia.
  replace (s ++ c :: t) with ((s ++ [c]) ++ t) by by rewrite <- app_assoc.
  rewrite drop_app_length' by (rewrite length_app; simpl; lia).
  apply take_ge. lia.
Qed.

Lemma renderCode_with_line_break part :
  LF ∈ part ->
  renderCode part
  = CodeBlock (trim (beforeLineBreak part)) (trim (afterLineBreak part)).
Proof.
  intros Hin. destruct (indexOf_present part Hin) as [Hi Hs].
  unfold renderCode. cbv zeta. rewrite Hi.
  replace (negb (Z.of_nat (length (beforeLineBreak part)) =? -1)%Z)
    with true by (symmetry; apply negb_true_iff, Z.eqb_neq; lia).
  rewrite Hs at 1 3.
  by rewrite substring_prefix, substring_suffix.
Qed.

Lemma renderCode_without_line_break part :
  LF ∉ part -> renderCode part = CodeBlock (lit "text") (trim part).
Proof.
  intros Hnot. unfold renderCode. by rewrite indexOf_absent.
Qed.

(** C4, as the code does it. For a code chunk (odd index) that contains a
    line break, the language tag is the substring up to the first line
    break, trimmed (possibly empty), and the body is the remainder after
    that line break, trimmed. For a code chunk with no line break the
    language tag is the default [text] and the body is the whole chunk,
    trimmed. *)
Theorem code_chunk_language_and_body N part :
  Nat.odd N = true ->
  (LF ∈ part ->
   renderPart N part
   = Some (CodeBlock (trim (beforeLineBreak part))
                     (trim (afterLineBreak part))))
  /\ (LF ∉ part ->
      renderPart N part = Some (CodeBlock (lit "text") (trim part))).
Proof.
  intros Hodd. rewrite renderPart_odd by done. split; intros H.
  - by rewrite renderCode_with_line_break.
  - by rewrite renderCode_without_line_break.
Qed.

Lemma code_chunk_language_and_body_witness :
  (LF ∈ lit "py" ++ [LF] ++ lit "print(1)" ++ [LF] ->
   renderPart 1 (lit "py" ++ [LF] ++ lit "print(1)" ++ [LF])
   = Some (CodeBlock
             (trim (beforeLineBreak (lit "py" ++ [LF] ++ lit "print(1)" ++ [LF])))
             (trim (afterLineBreak (lit "py" ++ [LF] ++ lit "print(1)" ++ [LF])))))
  /\ (LF ∉ lit "py" ++ [LF] ++ lit "print(1)" ++ [LF] ->
      renderPart 1 (lit "py" ++ [LF] ++ lit "print(1)" ++ [LF])
      = Some (CodeBlock (lit "text")
                (trim (lit "py" ++ [LF] ++ lit "print(1)" ++ [LF])))).
Proof.
  apply (code_chunk_language_and_body 1
           (lit "py" ++ [LF] ++ lit "print(1)" ++ [LF])).
  reflexivity.
Defined.

(** C4 as the specification words it fails on a code chunk with no line
    break: for the chunk [py] the code gives the tag [text] and the body
    [py], not the tag [py] and an empty body. *)
Lemma code_chunk_without_line_break_counterexample :
  renderPart 1 (lit "py") = Some (CodeBlock (lit "text") (lit "py"))
  /\ ~ (forall N part,
          Nat.odd N = true ->
          renderPart N part
          = Some (CodeBlock (trim (beforeLineBreak part))
                            (trim (afterLineBreak part)))).
Proof.
  split; [by vm_compute|].
  intros H. specialize (H 1%nat (lit "py") eq_refl).
  vm_compute in H. discriminate H.
Qed.

(** The example of the specification. *)
Example render_fenced :
  segments (lit "x```py" ++ [LF] ++ lit "print(1)" ++ [LF] ++ lit "```y")
  = [TextBlock [Span (lit "x")];
     CodeBlock (lit "py") (lit "print(1)");
     TextBlock [Span (lit "y")]].
Proof. by vm_compute. Qed.

End CodeChunk.

(** ** Prose chunks *)

Section Prose.

Implicit Types (part s body span : jsstring).

Lemma lit_mark : lit "**" = MARK.
Proof. reflexivity. Qed.

(** A match of the bold pattern is a marker, a body and a marker. *)
Lemma matchBold_shape s m :
  matchBold s = Some m -> exists body, m = MARK ++ body ++ MARK.
Proof.
  destruct s as [|c1 [|c2 s2]]; simpl; try done.
  destruct (_ && _); [|done].
  destruct (boldBody s2) as [body|]; [|done].
  intros [= <-]. by exists body.
Qed.

Lemma slice_strip body : slice (MARK ++ body ++ MARK) 2 (-2) = body.
Proof.
  unfold slice, sliceIndex. rewrite !length_app. simpl length.
  replace (2 <? 0)%Z with false by done.
  replace (-2 <? 0)%Z with true by done.
  replace (Nat.min (Z.to_nat 2) _) with 2%nat by lia.
  replace (Z.to_nat _) with (length body + 2)%nat by lia.
  replace (length body + 2 - 2)%nat with (length body) by lia.
  simpl drop. apply take_app_length.
Qed.

Lemma startsWith_mark s : startsWith (MARK ++ s) MARK = true.
Proof. reflexivity. Qed.

(** A span the pattern matched renders as emphasized text, the two markers
    stripped. *)
Lemma renderSubPart_match s m :
  matchBold s = Some m ->
  exists body, m = MARK ++ body ++ MARK /\ renderSubPart m = Strong body.
Proof.
  intros [body ->]%matchBold_shape. exists body. split; [done|].
  unfold renderSubPart, endsWith. rewrite lit_mark.
  rewrite !reverse_app. change (reverse MARK) with MARK.
  rewrite <- app_assoc, !startsWith_mark. cbn [andb].
  by rewrite slice_strip.
Qed.

(** A span that does not both start and end with the marker renders as
    plain text, unchanged. *)
Lemma renderSubPart_plain span :
  startsWith span MARK && endsWith span MARK = false ->
  renderSubPart span = Span span.
Proof. intros H. unfold renderSubPart. by rewrite lit_mark, H. Qed.

(** A prose chunk that is blank renders nothing. *)
Lemma renderText_blank part : blank part = true -> renderText part = None.
Proof.
  intros H. unfold renderText. by rewrite truthy_trim, H.
Qed.

Lemma splitBoldFrom_cons skip c s :
  splitBoldFrom skip (c :: s)
  = match skip with
    | S k => splitBoldFrom k s
    | O =>
        match matchBold (c :: s) with
        | Some m => [] :: m :: splitBoldFrom (length m - 1) s
        | None => consHead c (splitBoldFrom 0 s)
        end
    end.
Proof. done. Qed.

Lemma splitBoldFrom_nonempty skip s : splitBoldFrom skip s <> [].
Proof.
  revert skip. induction s as [|c s IH]; intros skip; [done|].
  rewrite splitBoldFrom_cons. destruct skip; [|apply IH].
  destruct (matchBold (c :: s)); [done|apply consHead_nonempty].
Qed.

Lemma lookup_consHead_S c (ps : list jsstring) i :
  ps <> [] -> consHead c ps !! S i = ps !! S i.
Proof. by destruct ps. Qed.

(** The split alternates pieces and matches: every odd position holds a
    match of the pattern. *)
Lemma splitBoldFrom_odd skip s i span :
  splitBoldFrom skip s !! i = Some span -> Nat.odd i = true ->
  exists t, matchBold t = Some span.
Proof.
  revert skip i. induction s as [|c s IH]; intros skip i.
  - destruct i as [|[|i]]; done.
  - rewrite splitBoldFrom_cons. destruct skip as [|k]; [|apply IH].
    destruct (matchBold (c :: s)) as [m|] eqn:E.
    + destruct i as [|[|i]]; [done| |].
      * intros [= <-] _. eauto.
      * intros Hi Hodd. apply (IH (length m - 1)%nat i); [done|].
        by rewrite Nat.odd_succ, Nat.even_succ in Hodd.
    + destruct i as [|i]; [done|].
      rewrite lookup_consHead_S by apply splitBoldFrom_nonempty. apply IH.
Qed.

(** In a prose chunk, every span the split took from a match of the pattern
    (the odd positions) renders as emphasized text with the markers
    stripped. *)
Lemma matched_span_emphasized part i span :
  splitBold part !! i = Some span -> Nat.odd i = true ->
  exists body, span = MARK ++ body ++ MARK /\ renderSubPart span = Strong body.
Proof.
  intros Hi Hodd. destruct (splitBoldFrom_odd _ _ _ _ Hi Hodd) as [t Ht].
  by apply (renderSubPart_match t).
Qed.

(** C5, the failing case. The prose chunk of three asterisks holds no match
    of the bold pattern and is split into the single span it is, yet that
    span is rendered as emphasized text, and as none of its characters: the
    test for a matched span looks only at how the span starts and ends. The
    same happens to a span with a line break inside the markers. *)
Theorem bold_test_accepts_unmatched_span :
  splitBold (lit "***") = [lit "***"]
  /\ (forall k, matchBold (drop k (lit "***")) = None)
  /\ renderText (lit "***") = Some (TextBlock [Strong []])
  /\ splitBold (lit "**a" ++ [LF] ++ lit "b**")
     = [lit "**a" ++ [LF] ++ lit "b**"]
  /\ renderText (lit "**a" ++ [LF] ++ lit "b**")
     = Some (TextBlock [Strong (lit "a" ++ [LF] ++ lit "b")]).
Proof.
  repeat split; try by vm_compute.
  intros [|[|[|[|k]]]]; by vm_compute.
Qed.

End Prose.

(** ** Credential resolution *)

Section Credential.

Context {St : Type}.
Implicit Types (env : ProcessEnv) (r : Run St) (k : jsstring).

Lemma truthy_true k : truthy k = true <-> k <> [].
Proof. destruct k; split; done. Qed.

Lemma getGenAI_unfold env r :
  getGenAI env r
  = match jsOr (API_KEY env) (GEMINI_API_KEY env) with
    | Some key =>
        if truthy key
        then (Normal (mkClient key), logged r (NewGoogleGenAI key))
        else (Throw (newError configErrorMessage), r)
    | None => (Throw (newError configErrorMessage), r)
    end.
Proof.
  unfold getGenAI. destruct (jsOr _ _) as [key|]; [|done].
  by destruct (truthy key).
Qed.

Lemma getGenAI_missing env r :
  hasCredential env = false ->
  getGenAI env r = (Throw (newError configErrorMessage), r).
Proof.
  unfold hasCredential. intros [H1 H2]%orb_false_elim.
  rewrite getGenAI_unfold. unfold jsOr. rewrite H1.
  destruct (GEMINI_API_KEY env) as [k|]; [|done].
  simpl in H2. by rewrite H2.
Qed.

Lemma getGenAI_present env r :
  hasCredential env = true ->
  exists key,
    getGenAI env r = (Normal (mkClient key), logged r (NewGoogleGenAI key)).
Proof.
  unfold hasCredential. intros H. rewrite getGenAI_unfold. unfold jsOr.
  destruct (truthyOpt (API_KEY env)) eqn:H1.
  - destruct (API_KEY env) as [k|]; [|done]. simpl in H1. rewrite H1. eauto.
  - simpl in H. destruct (GEMINI_API_KEY env) as [k|]; [|done].
    simpl in H. rewrite H. eauto.
Qed.

(** C10. [API_KEY] takes precedence: when it is a non-empty string the
    client is built from it, whatever [GEMINI_API_KEY] holds; when it is
    missing or empty, a non-empty [GEMINI_API_KEY] is used; and the
    configuration error is thrown exactly when both are missing or empty. *)
Theorem credential_precedence env r :
  (forall k, API_KEY env = Some k -> k <> [] ->
     getGenAI env r = (Normal (mkClient k), logged r (NewGoogleGenAI k)))
  /\ (forall k, truthyOpt (API_KEY env) = false ->
        GEMINI_API_KEY env = Some k -> k <> [] ->
        getGenAI env r = (Normal (mkClient k), logged r (NewGoogleGenAI k)))
  /\ ((exists e r', getGenAI env r = (Throw e, r'))
      <-> truthyOpt (API_KEY env) = false
          /\ truthyOpt (GEMINI_API_KEY env) = false)
  /\ (forall e r', getGenAI env r = (Throw e, r') ->
        e = newError configErrorMessage /\ r' = r).
Proof.
  rewrite getGenAI_unfold. unfold jsOr.
  destruct env as [[[|c a]|] [[|d g]|]]; simpl; repeat split;
    try (intros k); intros; simplify_eq; try done; eauto;
    try (destruct_and?; done);
    try (match goal with H : ex _ |- _ => destruct H as (? & ? & ?) end;
         done).
Qed.

End Credential.

(** With both variables set, the client is built from [API_KEY]. *)
Lemma credential_precedence_witness :
  getGenAI (mkEnv (Some (lit "a")) (Some (lit "b"))) (start tt)
  = (Normal (mkClient (lit "a")),
     logged (start tt) (NewGoogleGenAI (lit "a"))).
Proof.
  apply (proj1 (credential_precedence
                  (mkEnv (Some (lit "a")) (Some (lit "b"))) (start tt))).
  - reflexivity.
  - discriminate.
Defined.

(** ** The generation panel *)

Section Generator.

Implicit Types (env : ProcessEnv) (reply : Response) (r : Run GenState).

Lemma generateCode_blank env reply r :
  blank (description (comp r)) = true ->
  generateCode env reply r = (Normal tt, r).
Proof.
  intros H. unfold generateCode.
  unfold bind at 1 2. unfold gets at 1 2.
  by rewrite truthy_trim, H.
Qed.

(** Past the guard, the handler sets the flag, empties the buffer and runs
    its [try], [catch] and [finally] blocks. *)
Lemma generateCode_nonblank env reply r :
  blank (description (comp r)) = false ->
  generateCode env reply r
  = tryFinally
      (tryCatch
         (generateTry env reply (language (comp r)) (description (comp r)))
         generateCatch)
      (setLoading false)
      (mkRun (mkGen (description (comp r)) (language (comp r)) true (Some []))
             (calls r) (faulted r)).
Proof.
  intros H. unfold generateCode.
  unfold bind at 1 2. unfold gets at 1 2.
  by rewrite truthy_trim, H.
Qed.

Lemma generate_loop_normal cs acc r :
  exists acc' r', forAwaitChunks generateChunk cs acc r = (Normal acc', r').
Proof.
  revert acc r. induction cs as [|[[text|]] cs IH]; intros acc r; cbn.
  - by eexists _, _.
  - unfold bind, generateChunk. cbn.
    destruct (truthy text); cbn; apply IH.
  - apply IH.
Qed.

(** What the [try] block throws is the configuration error or what the
    reply threw. *)
Lemma generateTry_throws env reply l d r e r' :
  generateTry env reply l d r = (Throw e, r') ->
  e = newError configErrorMessage \/ thrownBy reply = Some e.
Proof.
  unfold generateTry. unfold bind at 1. rewrite getGenAI_unfold.
  destruct (jsOr _ _) as [key|]; [|intros [= <- _]; by left].
  destruct (truthy key); [|intros [= <- _]; by left].
  unfold generateContentStream, logCall. unfold bind at 1 2.
  destruct reply as [e0|[cs fin]]; cbn [awaitResponse thrownBy ending].
  - intros [= <- _]. by right.
  - unfold ret at 1. unfold forAwait. unfold bind at 1 2. cbn [chunks ending].
    match goal with
    | |- context [forAwaitChunks generateChunk cs [] ?r0] =>
        destruct (generate_loop_normal cs [] r0) as (acc' & r1 & ->)
    end.
    destruct fin as [|e0]; [done|]. intros [= <- _]. by right.
Qed.

(** Whatever the [try] block does, the handler clears the loading flag. It
    completes normally unless the reply failed with a nullish value, on
    which the [catch] block throws in turn. *)
Lemma generateCode_nonblank_clears env reply r :
  blank (description (comp r)) = false ->
  exists c r', generateCode env reply r = (c, r')
               /\ loading (comp r') = false
               /\ (failsNullish reply = false -> c = Normal tt).
Proof.
  intros H. rewrite generateCode_nonblank by done.
  unfold tryFinally, tryCatch.
  destruct (generateTry _ _ _ _ _) as [[[]|e] r1] eqn:Htry; cbn;
    [by eauto|].
  destruct e as [n|err]; cbn; [|by eauto].
  eexists _, _. split; [done|]. split; [done|]. intros Hno.
  apply generateTry_throws in Htry as [Hcfg|Hby]; [done|].
  unfold failsNullish in Hno. by rewrite Hby in Hno.
Qed.

(** The loop keeps the buffer equal to the running text. *)
Lemma generate_loop cs acc d l ld cl f :
  forAwaitChunks generateChunk cs acc (mkRun (mkGen d l ld (Some acc)) cl f)
  = (Normal (acc ++ concat (chunkTexts cs)),
     mkRun (mkGen d l ld (Some (acc ++ concat (chunkTexts cs)))) cl f).
Proof.
  revert acc. induction cs as [|[[text|]] cs IH]; intros acc; simpl.
  - by rewrite app_nil_r.
  - unfold bind, generateChunk. simpl.
    destruct text as [|c text]; simpl; [apply IH|].
    rewrite IH. by rewrite <- app_assoc.
  - apply IH.
Qed.

Lemma truthy_configErrorMessage : truthy configErrorMessage = true.
Proof. reflexivity. Qed.

(** Without a credential the [try] block throws at once. *)
Lemma generateTry_missing env reply l d r :
  hasCredential env = false ->
  generateTry env reply l d r = (Throw (newError configErrorMessage), r).
Proof.
  intros H. unfold generateTry, bind. by rewrite getGenAI_missing.
Qed.

(** With a credential and a stream that ends normally, the buffer ends as
    the concatenation of the chunk texts. *)
Lemma generateCode_streams env r cs :
  hasCredential env = true ->
  blank (description (comp r)) = false ->
  exists r', generateCode env (Streaming (mkStream cs EndOfStream)) r
             = (Normal tt, r')
             /\ output (comp r') = Some (concat (chunkTexts cs))
             /\ loading (comp r') = false.
Proof.
  intros Hcred Hd. rewrite generateCode_nonblank by done.
  unfold tryFinally, tryCatch, generateTry, bind.
  destruct (getGenAI_present env
              (mkRun (mkGen (description (comp r)) (language (comp r)) true
                        (Some [])) (calls r) (faulted r)) Hcred)
    as [key ->].
  unfold generateContentStream, bind, logCall, awaitResponse, ret, forAwait,
    bind. simpl.
  rewrite generate_loop. simpl. eauto.
Qed.

(** C7. With a blank description (empty or white space only), [generateCode]
    returns at once: no SDK call is logged, so no request is issued, and
    the panel, its result buffer included, is as it was. *)
Theorem generate_blank_is_noop env reply r :
  blank (description (comp r)) = true ->
  generateCode env reply r = (Normal tt, r)
  /\ calls (snd (generateCode env reply r)) = calls r
  /\ output (comp (snd (generateCode env reply r))) = output (comp r).
Proof.
  intros H. by rewrite generateCode_blank.
Qed.

Lemma generate_blank_is_noop_witness :
  let r := start (mkGen (lit "  ") (lit "C") false (Some (lit "old"))) in
  generateCode (mkEnv (Some (lit "k")) None) (Rejected (mkError None)) r
  = (Normal tt, r)
  /\ calls (snd (generateCode (mkEnv (Some (lit "k")) None)
                   (Rejected (mkError None)) r)) = calls r
  /\ output (comp (snd (generateCode (mkEnv (Some (lit "k")) None)
                          (Rejected (mkError None)) r)))
     = output (comp r).
Proof.
  apply (generate_blank_is_noop (mkEnv (Some (lit "k")) None)
           (Rejected (mkError None))
           (start (mkGen (lit "  ") (lit "C") false (Some (lit "old"))))).
  reflexivity.
Defined.

(** C3. While the loading flag is set the generate button is disabled, so
    invoking generate through it does nothing: no SDK call is logged, hence
    no streaming request is issued, and the panel, its result buffer
    included, is as it was. The guard is the [disabled] attribute of the
    button, the only caller of [generateCode]. *)
Theorem generate_in_flight_is_noop env reply r :
  loading (comp r) = true ->
  clickGenerate env reply r = (Normal tt, r)
  /\ calls (snd (clickGenerate env reply r)) = calls r
  /\ output (comp (snd (clickGenerate env reply r))) = output (comp r).
Proof.
  intros H. unfold clickGenerate, generateDisabled. by rewrite H.
Qed.

Lemma generate_in_flight_is_noop_witness :
  let r := start (mkGen (lit "sort") (lit "C") true (Some (lit "par"))) in
  clickGenerate (mkEnv (Some (lit "k")) None)
    (Streaming (mkStream [] EndOfStream)) r
  = (Normal tt, r)
  /\ calls (snd (clickGenerate (mkEnv (Some (lit "k")) None)
                   (Streaming (mkStream [] EndOfStream)) r)) = calls r
  /\ output (comp (snd (clickGenerate (mkEnv (Some (lit "k")) None)
                          (Streaming (mkStream [] EndOfStream)) r)))
     = output (comp r).
Proof.
  apply (generate_in_flight_is_noop (mkEnv (Some (lit "k")) None)
           (Streaming (mkStream [] EndOfStream))
           (start (mkGen (lit "sort") (lit "C") true (Some (lit "par"))))).
  reflexivity.
Defined.

(** The guard lives in the button only: [generateCode] itself does not read
    the loading flag. *)
Remark generateCode_reads_no_flag :
  let r := start (mkGen (lit "sort") (lit "C") true (Some (lit "par"))) in
  exists r', generateCode (mkEnv (Some (lit "k")) None)
               (Streaming (mkStream [] EndOfStream)) r = (Normal tt, r')
             /\ output (comp r') = Some []
             /\ exists prompt,
                  calls r' = [NewGoogleGenAI (lit "k");
                              GenerateContentStream MODEL prompt].
Proof. simpl. eexists. repeat split. by eexists. Qed.

End Generator.

(** ** The chat panel *)

Section Chat.

Implicit Types (env : ProcessEnv) (reply : Response) (r : Run ChatState).
Implicit Types (ms : list Entry) (cs : list Chunk).

Lemma overwriteLast_snoc full ms e :
  overwriteLast full (ms ++ [e]) = Some (ms ++ [mkEntry (role e) full]).
Proof.
  unfold overwriteLast. rewrite last_snoc, length_app. simpl length.
  replace (pred (length ms + 1)) with (length ms + 0)%nat by lia.
  by rewrite insert_app_r.
Qed.

Lemma overwriteLast_empty full : overwriteLast full [] = None.
Proof. done. Qed.

(** On a transcript that ends with the entry of the turn, the loop applies
    the chunks in order and keeps that entry equal to the running text; the
    entries before it are not touched. *)
Lemma chat_loop cs acc ms ro i ty se cl f :
  forAwaitChunks chatChunk cs acc
    (mkRun (mkChat (ms ++ [mkEntry ro acc]) i ty se) cl f)
  = (Normal (acc ++ concat (chunkTexts cs)),
     mkRun (mkChat (ms ++ [mkEntry ro (acc ++ concat (chunkTexts cs))])
              i ty se) cl f).
Proof.
  revert acc. induction cs as [|c cs IH]; intros acc; simpl.
  - by rewrite app_nil_r.
  - unfold bind at 1. unfold chatChunk, bind, setMessages. simpl.
    rewrite overwriteLast_snoc. simpl.
    rewrite IH. by rewrite <- app_assoc.
Qed.

Lemma sendMessage_blank env reply r :
  blank (input (comp r)) = true -> sendMessage env reply r = (Normal tt, r).
Proof.
  intros H. unfold sendMessage. unfold bind at 1. unfold gets at 1.
  by rewrite truthy_trim, H.
Qed.

(** Past the guard, the handler appends the user entry, empties the input,
    sets the typing flag and runs its [try], [catch] and [finally]. *)
Lemma sendMessage_nonblank env reply r :
  blank (input (comp r)) = false ->
  sendMessage env reply r
  = tryFinally
      (tryCatch (sendTry env reply (input (comp r))) sendCatch)
      (setIsTyping false)
      (mkRun (mkChat (messages (comp r) ++ [mkEntry user (input (comp r))])
                [] true (chatSessionRef (comp r)))
             (calls r) (faulted r)).
Proof.
  intros H. unfold sendMessage. unfold bind at 1. unfold gets at 1.
  by rewrite truthy_trim, H.
Qed.

Lemma chat_loop_normal cs acc r :
  exists acc' r', forAwaitChunks chatChunk cs acc r = (Normal acc', r').
Proof.
  revert acc r. induction cs as [|c cs IH]; intros acc r; cbn.
  - by eexists _, _.
  - unfold bind at 1. unfold chatChunk, bind, setMessages.
    destruct (overwriteLast _ _); cbn; apply IH.
Qed.

Lemma initChat_normal env r : exists b r', initChat env r = (Normal b, r').
Proof.
  unfold initChat, tryCatch. unfold bind at 1. rewrite getGenAI_unfold.
  destruct (jsOr _ _) as [key|]; [|by eexists _, _].
  destruct (truthy key); by eexists _, _.
Qed.

(** What the [try] block throws is one of its own two errors or what the
    reply threw. *)
Lemma sendTry_throws env reply userMsg r e r' :
  sendTry env reply userMsg r = (Throw e, r') ->
  e = newError missingKeyMessage \/ e = nullSessionError
  \/ thrownBy reply = Some e.
Proof.
  assert (Hrest : forall r0,
    (let! session := gets chatSessionRef in
     let! resultStream := sendMessageStream session userMsg reply in
     run! setMessages (appendEntry (mkEntry model [])) in
     let! _ := forAwait chatChunk resultStream [] in
     ret tt) r0 = (Throw e, r') ->
    e = newError missingKeyMessage \/ e = nullSessionError
    \/ thrownBy reply = Some e).
  { intros r0. unfold bind at 1. unfold gets at 1.
    unfold sendMessageStream.
    destruct (chatSessionRef (comp r0)) as [sess|].
    - unfold logCall. unfold bind at 1 2.
      destruct reply as [e0|[cs fin]]; cbn [awaitResponse thrownBy ending].
      + intros [= <- _]. by right; right.
      + unfold ret at 1. unfold setMessages, appendEntry. unfold bind at 1.
        unfold forAwait. unfold bind at 1 2. cbn [chunks ending].
        match goal with
        | |- context [forAwaitChunks chatChunk cs [] ?r1] =>
            destruct (chat_loop_normal cs [] r1) as (acc' & r2 & ->)
        end.
        destruct fin as [|e0]; [done|]. intros [= <- _]. by right; right.
    - unfold bind at 1. unfold throw. intros [= <- _]. by right; left. }
  unfold sendTry. unfold bind at 1. unfold gets at 1.
  destruct (negb (bool_decide (is_Some (chatSessionRef (comp r))))).
  - unfold bind at 1 2.
    destruct (initChat_normal env r) as (b & r0 & ->).
    destruct b; cbn [negb].
    + unfold ret at 1. apply Hrest.
    + unfold throw. intros [= <- _]. by left.
  - unfold bind at 1. unfold ret at 1. apply Hrest.
Qed.

Lemma sendMessage_nonblank_clears env reply r :
  blank (input (comp r)) = false ->
  exists c r', sendMessage env reply r = (c, r')
               /\ isTyping (comp r') = false
               /\ (failsNullish reply = false -> c = Normal tt).
Proof.
  intros H. rewrite sendMessage_nonblank by done.
  unfold tryFinally, tryCatch.
  destruct (sendTry _ _ _ _) as [[[]|e] r1] eqn:Htry; cbn; [by eauto|].
  destruct e as [n|err]; cbn.
  - eexists _, _. split; [done|]. split; [done|]. intros Hno.
    apply sendTry_throws in Htry as [Hk|[Hk|Hby]]; [done|done|].
    unfold failsNullish in Hno. by rewrite Hby in Hno.
  - unfold sendCatch, setMessages, appendEntry. cbn. eauto.
Qed.

Lemma initChat_missing env r :
  hasCredential env = false -> initChat env r = (Normal false, r).
Proof.
  intros H. unfold initChat, tryCatch, bind. by rewrite getGenAI_missing.
Qed.

Lemma initChat_present env r :
  hasCredential env = true ->
  exists key,
    initChat env r
    = (Normal true,
       mkRun (mkChat (messages (comp r)) (input (comp r)) (isTyping (comp r))
                (Some (mkSession key MODEL CHAT_SYSTEM_PROMPT)))
             (calls r ++ [NewGoogleGenAI key]
              ++ [ChatsCreate MODEL CHAT_SYSTEM_PROMPT])
             (faulted r)).
Proof.
  intros H. destruct (getGenAI_present env r H) as [key Hkey].
  exists key. unfold initChat, tryCatch, bind. rewrite Hkey.
  unfold chatsCreate, bind, logCall, logged. simpl.
  by rewrite <- app_assoc.
Qed.

(** With no session and no credential, the [try] block throws before the
    request. *)
Lemma sendTry_missing env reply userMsg r :
  hasCredential env = false ->
  chatSessionRef (comp r) = None ->
  sendTry env reply userMsg r = (Throw (newError missingKeyMessage), r).
Proof.
  intros Hcred Hnone. unfold sendTry. unfold bind at 1. unfold gets at 1.
  rewrite Hnone. simpl negb. cbv iota.
  unfold bind at 1 2. by rewrite initChat_missing.
Qed.

(** With a session at hand, or a credential to make one, and a stream of
    chunks, the [try] block appends the entry of the turn and runs the
    loop from there. *)
Lemma sendTry_streams env userMsg r s :
  sessionAvailable env (comp r) = true ->
  exists r0,
    messages (comp r0) = messages (comp r) ++ [mkEntry model []]
    /\ input (comp r0) = input (comp r)
    /\ isTyping (comp r0) = isTyping (comp r)
    /\ faulted r0 = faulted r
    /\ (exists c, In (SendMessageStream userMsg) (calls r0)
                  /\ calls r0 = calls r ++ c)
    /\ sendTry env (Streaming s) userMsg r
       = (let! _ := forAwait chatChunk s [] in ret tt) r0.
Proof.
  intros Hav. unfold sessionAvailable in Hav.
  destruct (chatSessionRef (comp r)) as [sess|] eqn:Hs.
  - eexists (mkRun (mkChat (messages (comp r) ++ [mkEntry model []])
                      (input (comp r)) (isTyping (comp r)) (Some sess))
                   (calls r ++ [SendMessageStream userMsg]) (faulted r)).
    repeat split; simpl.
    + eexists. split; [|done]. apply in_or_app. right. by left.
    + unfold sendTry. unfold bind at 1. unfold gets at 1. rewrite Hs.
      rewrite bool_decide_eq_true_2 by eauto. simpl negb. cbv iota.
      unfold bind at 1 2 3 4. unfold ret at 1. unfold gets at 1. rewrite Hs.
      unfold sendMessageStream, logCall, awaitResponse, setMessages,
        appendEntry.
      unfold bind at 1. unfold ret at 1. cbn -[forAwait bind ret].
      by rewrite Hs.
  - rewrite bool_decide_eq_false_2 in Hav by by intros [? [=]].
    simpl in Hav. destruct (initChat_present env r Hav) as [key Hkey].
    eexists (mkRun (mkChat (messages (comp r) ++ [mkEntry model []])
                      (input (comp r)) (isTyping (comp r))
                      (Some (mkSession key MODEL CHAT_SYSTEM_PROMPT)))
                   (calls r ++ [NewGoogleGenAI key;
                                ChatsCreate MODEL CHAT_SYSTEM_PROMPT;
                                SendMessageStream userMsg]) (faulted r)).
    repeat split; simpl.
    + eexists. split; [|done]. apply in_or_app. right. right. right. by left.
    + unfold sendTry. unfold bind at 1. unfold gets at 1. rewrite Hs.
      rewrite bool_decide_eq_false_2 by by intros [? [=]].
      simpl negb. cbv iota.
      unfold bind at 1 2. rewrite Hkey. simpl negb. cbv iota.
      unfold ret at 1. unfold bind at 1 2 3. unfold gets at 1.
      unfold sendMessageStream, logCall, awaitResponse, setMessages,
        appendEntry.
      cbn -[forAwait bind ret]. unfold bind at 1. unfold ret at 1.
      cbn -[forAwait bind ret]. by rewrite <- !app_assoc.
Qed.

End Chat.

(** ** One chat exchange *)

Section ChatExchange.

Implicit Types (env : ProcessEnv) (reply : Response) (r : Run ChatState).
Implicit Types (cs : list Chunk).

(** C1. In one exchange whose stream delivers the chunks [cs] in order, the
    loop starts on the transcript extended by the user entry and the empty
    model entry of the turn; after the first [k] chunks that model entry
    holds exactly the concatenation of their texts (the whole text is
    replaced, the other entries are untouched); and in the transcript
    [sendMessage] leaves, the model entry of the turn holds the
    concatenation of all the chunk texts, in arrival order. A stream that
    fails after its chunks adds a diagnostic entry behind that entry and
    does not change it; when it fails with a nullish value the [catch]
    block throws before adding anything, and the entry stays as it is. *)
Theorem chat_chunks_in_order env r cs fin :
  blank (input (comp r)) = false ->
  sessionAvailable env (comp r) = true ->
  let base := messages (comp r) ++ [mkEntry user (input (comp r))] in
  let reply := Streaming (mkStream cs fin) in
  exists r0,
    messages (comp r0) = base ++ [mkEntry model []]
    /\ (forall k,
          messages (comp (snd (forAwaitChunks chatChunk (take k cs) [] r0)))
          = base ++ [mkEntry model (concat (take k (chunkTexts cs)))])
    /\ (fin = EndOfStream ->
        sendMessage env reply r
        = (Normal tt,
           snd (setIsTyping false
                  (snd (forAwaitChunks chatChunk cs [] r0)))))
    /\ messages (comp (snd (sendMessage env reply r)))
       = base ++ [mkEntry model (concat (chunkTexts cs))]
         ++ match fin with
            | EndOfStream => []
            | StreamThrows (ThrownValue e) =>
                [mkEntry model
                   (chatDiagnostic (orDefault (message e) unknownError))]
            | StreamThrows (ThrownNullish _) => []
            end
    /\ faulted (snd (sendMessage env reply r)) = faulted r.
Proof.
  intros Hin Hav base reply. subst base reply.
  rewrite sendMessage_nonblank by done.
  set (base := messages (comp r) ++ [mkEntry user (input (comp r))]).
  set (r1 := mkRun (mkChat base [] true (chatSessionRef (comp r)))
                   (calls r) (faulted r)).
  destruct (sendTry_streams env (input (comp r)) r1 (mkStream cs fin))
    as (r0 & Hm & Hi & Hty & Hf & _ & Htry); [done|].
  exists r0. destruct r0 as [[m0 i0 ty0 se0] cl0 f0]. simpl in Hm, Hf.
  subst m0 f0.
  assert (Hloop : forall cs',
    forAwaitChunks chatChunk cs' []
      (mkRun (mkChat (base ++ [mkEntry model []]) i0 ty0 se0) cl0 (faulted r))
    = (Normal (concat (chunkTexts cs')),
       mkRun (mkChat (base ++ [mkEntry model (concat (chunkTexts cs'))])
                i0 ty0 se0) cl0 (faulted r))).
  { intros cs'. apply (chat_loop cs' [] base model). }
  assert (Hres :
    tryFinally (tryCatch (sendTry env (Streaming (mkStream cs fin))
                            (input (comp r))) sendCatch)
      (setIsTyping false) r1
    = (match fin with
       | StreamThrows (ThrownNullish n) => Throw (readMessageError n)
       | _ => Normal tt
       end,
       mkRun (mkChat
                (base ++ [mkEntry model (concat (chunkTexts cs))]
                 ++ match fin with
                    | EndOfStream => []
                    | StreamThrows (ThrownValue e) =>
                        [mkEntry model
                           (chatDiagnostic
                              (orDefault (message e) unknownError))]
                    | StreamThrows (ThrownNullish _) => []
                    end)
                i0 false se0) cl0 (faulted r))).
  { unfold tryFinally, tryCatch. rewrite Htry.
    unfold forAwait, bind. simpl chunks. simpl ending. rewrite Hloop.
    destruct fin as [|[n|e]]; simpl.
    - done.
    - done.
    - by rewrite <- !app_assoc. }
  rewrite Hres. split; [done|]. split.
  { intros k. rewrite Hloop. simpl. unfold chunkTexts. by rewrite fmap_take. }
  split; [|done].
  intros ->. by rewrite Hloop.
Qed.

Lemma chat_chunks_in_order_witness :
  let env := mkEnv (Some (lit "k")) None in
  let r := start (mkChat [] (lit "hi") false None) in
  let cs := [mkChunk (Some (lit "ab")); mkChunk None;
             mkChunk (Some (lit "cd"))] in
  let base := messages (comp r) ++ [mkEntry user (input (comp r))] in
  let reply := Streaming (mkStream cs EndOfStream) in
  exists r0,
    messages (comp r0) = base ++ [mkEntry model []]
    /\ (forall k,
          messages (comp (snd (forAwaitChunks chatChunk (take k cs) [] r0)))
          = base ++ [mkEntry model (concat (take k (chunkTexts cs)))])
    /\ (EndOfStream = EndOfStream ->
        sendMessage env reply r
        = (Normal tt,
           snd (setIsTyping false
                  (snd (forAwaitChunks chatChunk cs [] r0)))))
    /\ messages (comp (snd (sendMessage env reply r)))
       = base ++ [mkEntry model (concat (chunkTexts cs))] ++ []
    /\ faulted (snd (sendMessage env reply r)) = faulted r.
Proof.
  apply (chat_chunks_in_order (mkEnv (Some (lit "k")) None)
           (start (mkChat [] (lit "hi") false None))
           [mkChunk (Some (lit "ab")); mkChunk None;
            mkChunk (Some (lit "cd"))] EndOfStream).
  - reflexivity.
  - reflexivity.
Defined.

Example chat_three_chunks :
  messages (comp (snd (sendMessage (mkEnv (Some (lit "k")) None)
     (Streaming (mkStream [mkChunk (Some (lit "ab")); mkChunk None;
                           mkChunk (Some (lit "cd"))] EndOfStream))
     (start (mkChat [] (lit "hi") false None)))))
  = [mkEntry user (lit "hi"); mkEntry model (lit "abcd")].
Proof. by vm_compute. Qed.

End ChatExchange.

(** ** Missing credential *)

Section MissingCredential.

Implicit Types (env : ProcessEnv) (reply : Response).

Lemma generateCode_missing env reply (r : Run GenState) :
  hasCredential env = false ->
  blank (description (comp r)) = false ->
  generateCode env reply r
  = (Normal tt,
     mkRun (mkGen (description (comp r)) (language (comp r)) false
              (Some (generateDiagnostic configErrorMessage)))
           (calls r) (faulted r)).
Proof.
  intros Hcred Hd. rewrite generateCode_nonblank by done.
  unfold tryFinally, tryCatch. by rewrite generateTry_missing.
Qed.

Lemma sendMessage_missing env reply (r : Run ChatState) :
  hasCredential env = false ->
  chatSessionRef (comp r) = None ->
  blank (input (comp r)) = false ->
  sendMessage env reply r
  = (Normal tt,
     mkRun (mkChat (messages (comp r)
                    ++ [mkEntry user (input (comp r));
                        mkEntry model (chatDiagnostic missingKeyMessage)])
              [] false None)
           (calls r) (faulted r)).
Proof.
  intros Hcred Hnone Hin. rewrite sendMessage_nonblank by done.
  unfold tryFinally, tryCatch. rewrite sendTry_missing by done.
  unfold sendCatch, setMessages, appendEntry. simpl.
  by rewrite Hnone, <- app_assoc.
Qed.

(** Without a credential no action on the chat panel creates a session or
    calls the SDK. *)
Lemma stepChat_missing env (r : Run ChatState) a :
  hasCredential env = false ->
  chatSessionRef (comp r) = None /\ calls r = [] ->
  chatSessionRef (comp (stepChat env r a)) = None
  /\ calls (stepChat env r a) = [].
Proof.
  intros Hcred [Hnone Hcalls].
  assert (Hsend : forall reply,
    chatSessionRef (comp (snd (sendMessage env reply r))) = None
    /\ calls (snd (sendMessage env reply r)) = []).
  { intros reply. destruct (blank (input (comp r))) eqn:Hin.
    - by rewrite sendMessage_blank.
    - by rewrite sendMessage_missing. }
  unfold stepChat. destruct a as [s|reply|reply]; simpl.
  - done.
  - unfold clickSend. destruct (sendDisabled (comp r)); [done|apply Hsend].
  - apply Hsend.
Qed.

Lemma chatAfter_missing env history :
  hasCredential env = false ->
  chatSessionRef (comp (chatAfter env history)) = None
  /\ calls (chatAfter env history) = [].
Proof.
  intros Hcred. unfold chatAfter.
  induction history as [|a history IH] using rev_ind.
  - unfold mountChat, bind. by rewrite initChat_missing.
  - rewrite foldl_snoc. by apply stepChat_missing.
Qed.

Lemma generateDiagnostic_config :
  generateDiagnostic configErrorMessage
  = (lit "**CONFIGURATION ERROR**" ++ [LF; LF]
                  ++ lit "Configuration Error: The API_KEY or GEMINI_API_KEY environment variable is missing. Please add it in your Vercel/Netlify settings."
                  ++ [LF; LF] ++ lit "To fix this on Vercel:" ++ [LF]
                  ++ lit "1. Go to **Settings** > **Environment Variables**."
                  ++ [LF]
                  ++ lit "2. Add `API_KEY` or `GEMINI_API_KEY` with your Google Gemini API Key."
                  ++ [LF] ++ lit "3. Redeploy your project.").
Proof. reflexivity. Qed.

Lemma chatDiagnostic_missingKey :
  chatDiagnostic missingKeyMessage
  = (lit "**CONFIGURATION ERROR**: Missing API_KEY or GEMINI_API_KEY environment variable.. Please check Vercel settings.").
Proof. reflexivity. Qed.

(** C8. When neither environment variable holds a non-empty value: a
    generation attempt (a generate past the blank-description guard) logs no
    SDK call, so issues no request, and leaves in the result buffer the
    configuration-error text written out below, which the console shows as
    the emphasized heading CONFIGURATION ERROR followed by the message and
    the steps; and on the chat panel, after its mount and any history of
    actions, a send attempt (a send past the blank-input guard) logs no SDK
    call and appends, after the user entry, a model entry holding the
    configuration-error text written out below, shown as the same
    emphasized heading followed by the message. *)
Theorem missing_credential_diagnostic env :
  hasCredential env = false ->
  (forall reply (r : Run GenState),
     blank (description (comp r)) = false ->
     generateCode env reply r
     = (Normal tt,
        mkRun (mkGen (description (comp r)) (language (comp r)) false
                 (Some (lit "**CONFIGURATION ERROR**" ++ [LF; LF]
                  ++ lit "Configuration Error: The API_KEY or GEMINI_API_KEY environment variable is missing. Please add it in your Vercel/Netlify settings."
                  ++ [LF; LF] ++ lit "To fix this on Vercel:" ++ [LF]
                  ++ lit "1. Go to **Settings** > **Environment Variables**."
                  ++ [LF]
                  ++ lit "2. Add `API_KEY` or `GEMINI_API_KEY` with your Google Gemini API Key."
                  ++ [LF] ++ lit "3. Redeploy your project.")))
              (calls r) (faulted r))
     /\ consoleView (comp (snd (generateCode env reply r)))
        = [TextBlock
          [Span [];
           Strong (lit "CONFIGURATION ERROR");
           Span ([LF; LF]
                 ++ lit "Configuration Error: The API_KEY or GEMINI_API_KEY environment variable is missing. Please add it in your Vercel/Netlify settings."
                 ++ [LF; LF] ++ lit "To fix this on Vercel:" ++ [LF]
                 ++ lit "1. Go to ");
           Strong (lit "Settings");
           Span (lit " > ");
           Strong (lit "Environment Variables");
           Span (lit "." ++ [LF]
                 ++ lit "2. Add `API_KEY` or `GEMINI_API_KEY` with your Google Gemini API Key."
                 ++ [LF] ++ lit "3. Redeploy your project.")]])
  /\ (forall history reply,
        let r := chatAfter env history in
        calls r = []
        /\ (blank (input (comp r)) = false ->
            sendMessage env reply r
            = (Normal tt,
               mkRun (mkChat
                        (messages (comp r)
                         ++ [mkEntry user (input (comp r));
                             mkEntry model
                               (lit "**CONFIGURATION ERROR**: Missing API_KEY or GEMINI_API_KEY environment variable.. Please check Vercel settings.")])
                        [] false None)
                     (calls r) (faulted r))
            /\ segments (lit "**CONFIGURATION ERROR**: Missing API_KEY or GEMINI_API_KEY environment variable.. Please check Vercel settings.")
               = [TextBlock
          [Span [];
           Strong (lit "CONFIGURATION ERROR");
           Span (lit ": Missing API_KEY or GEMINI_API_KEY environment variable.. Please check Vercel settings.")]])).
Proof.
  intros Hcred. split.
  - intros reply r Hd. rewrite generateCode_missing by done.
    rewrite generateDiagnostic_config. split; [done|].
    unfold consoleView. cbn [snd comp output default]. by vm_compute.
  - intros history reply r. subst r.
    destruct (chatAfter_missing env history Hcred) as [Hnone Hcalls].
    split; [done|]. intros Hin. rewrite sendMessage_missing by done.
    rewrite chatDiagnostic_missingKey. split; [done|]. by vm_compute.
Qed.

(** An environment whose only variable is set to the empty string: one
    generation attempt and one send attempt after typing a question. *)
Lemma missing_credential_diagnostic_witness :
  let env := mkEnv None (Some []) in
  let reply := Streaming (mkStream [mkChunk (Some (lit "x"))] EndOfStream) in
  generateCode env reply (start (mkGen (lit "sort") (lit "C") false None))
  = (Normal tt,
     start (mkGen (lit "sort") (lit "C") false
              (Some (lit "**CONFIGURATION ERROR**" ++ [LF; LF]
                  ++ lit "Configuration Error: The API_KEY or GEMINI_API_KEY environment variable is missing. Please add it in your Vercel/Netlify settings."
                  ++ [LF; LF] ++ lit "To fix this on Vercel:" ++ [LF]
                  ++ lit "1. Go to **Settings** > **Environment Variables**."
                  ++ [LF]
                  ++ lit "2. Add `API_KEY` or `GEMINI_API_KEY` with your Google Gemini API Key."
                  ++ [LF] ++ lit "3. Redeploy your project."))))
  /\ sendMessage env reply (chatAfter env [TypeInput (lit "hi")])
     = (Normal tt,
        start (mkChat [mkEntry user (lit "hi");
                       mkEntry model
                         (lit "**CONFIGURATION ERROR**: Missing API_KEY or GEMINI_API_KEY environment variable.. Please check Vercel settings.")]
                 [] false None)).
Proof.
  pose proof (missing_credential_diagnostic (mkEnv None (Some [])) eq_refl)
    as [Hgen Hchat].
  split.
  - apply (Hgen _ (start (mkGen (lit "sort") (lit "C") false None))).
    reflexivity.
  - apply (Hchat [TypeInput (lit "hi")]). reflexivity.
Defined.

End MissingCredential.

(** ** The processing flags *)

Section Flags.

Implicit Types (env : ProcessEnv) (reply : Response).

(** C9, as the code does it. Every generate and every send that passes the
    blank-input guard terminates, whatever the credential and the reply of
    the service (a rejected request, a stream that ends, a stream that
    fails after some chunks, whatever value is thrown), with its flag
    cleared; it completes normally unless the reply failed with a nullish
    value. A generate or send stopped by the guard returns before the flag
    is touched and leaves the panel, its flag included, as it was. *)
Theorem flags_cleared_past_guard env reply :
  (forall r : Run GenState,
     blank (description (comp r)) = false ->
     exists c r', generateCode env reply r = (c, r')
                  /\ loading (comp r') = false
                  /\ (failsNullish reply = false -> c = Normal tt))
  /\ (forall r : Run GenState,
        blank (description (comp r)) = true ->
        generateCode env reply r = (Normal tt, r))
  /\ (forall r : Run ChatState,
        blank (input (comp r)) = false ->
        exists c r', sendMessage env reply r = (c, r')
                     /\ isTyping (comp r') = false
                     /\ (failsNullish reply = false -> c = Normal tt))
  /\ (forall r : Run ChatState,
        blank (input (comp r)) = true ->
        sendMessage env reply r = (Normal tt, r)).
Proof.
  repeat split.
  - intros r H. by apply generateCode_nonblank_clears.
  - intros r H. by apply generateCode_blank.
  - intros r H. by apply sendMessage_nonblank_clears.
  - intros r H. by apply sendMessage_blank.
Qed.

(** A stream that fails after one chunk, on both panels. *)
Lemma flags_cleared_past_guard_witness :
  let env := mkEnv (Some (lit "k")) None in
  let reply :=
    Streaming (mkStream [mkChunk (Some (lit "x"))]
                 (StreamThrows (mkError None))) in
  (exists r', generateCode env reply
                (start (mkGen (lit "sort") (lit "C") false None))
              = (Normal tt, r')
              /\ loading (comp r') = false)
  /\ (exists r', sendMessage env reply
                   (start (mkChat [] (lit "hi") false None))
                 = (Normal tt, r')
                 /\ isTyping (comp r') = false).
Proof.
  pose proof (flags_cleared_past_guard (mkEnv (Some (lit "k")) None)
    (Streaming (mkStream [mkChunk (Some (lit "x"))]
                  (StreamThrows (mkError None)))))
    as (Hgen & _ & Hsend & _).
  split.
  - destruct (Hgen (start (mkGen (lit "sort") (lit "C") false None))
                eq_refl) as (c & r' & Heq & Hflag & Hc).
    exists r'. rewrite Heq, (Hc eq_refl). by split.
  - destruct (Hsend (start (mkChat [] (lit "hi") false None)) eq_refl)
      as (c & r' & Heq & Hflag & Hc).
    exists r'. rewrite Heq, (Hc eq_refl). by split.
Defined.

(** C9 as the specification words it fails on the early return. While an
    exchange awaits its reply the user entry is in the transcript, the input
    is empty and the typing flag is set; a second Enter then calls
    [sendMessage], which returns at the guard with the flag still set. *)
Lemma early_return_keeps_flag_counterexample :
  let env := mkEnv (Some (lit "k")) None in
  let reply := Streaming (mkStream [] EndOfStream) in
  let inFlight :=
    mkRun (mkChat [mkEntry user (lit "hi")] [] true
             (Some (mkSession (lit "k") MODEL CHAT_SYSTEM_PROMPT)))
          [NewGoogleGenAI (lit "k"); ChatsCreate MODEL CHAT_SYSTEM_PROMPT;
           SendMessageStream (lit "hi")]
          false in
  pressEnter env reply inFlight = (Normal tt, inFlight)
  /\ isTyping (comp (snd (sendMessage env reply inFlight))) = true
  /\ ~ (forall env reply (r : Run ChatState),
          isTyping (comp (snd (sendMessage env reply r))) = false).
Proof.
  repeat split.
  intros H.
  specialize (H (mkEnv (Some (lit "k")) None)
                (Streaming (mkStream [] EndOfStream))
                (start (mkChat [mkEntry user (lit "hi")] [] true
                          (Some (mkSession (lit "k") MODEL
                                   CHAT_SYSTEM_PROMPT))))).
  discriminate H.
Qed.

End Flags.

(** ** Render passes *)

Section RenderPasses.

Implicit Types (env : ProcessEnv) (content : jsstring).

Lemma consoleView_streams env (r : Run GenState) cs :
  hasCredential env = true ->
  blank (description (comp r)) = false ->
  consoleView
    (comp (snd (generateCode env (Streaming (mkStream cs EndOfStream)) r)))
  = segments (concat (chunkTexts cs)).
Proof.
  intros Hcred Hd.
  destruct (generateCode_streams env r cs Hcred Hd) as (r' & -> & Hout & _).
  unfold consoleView. simpl. by rewrite Hout.
Qed.

(** C6. The renderer is a function of its input alone. Two passes over the
    same buffer return the same tree and the same segment list; two states
    of the panel that hold the same buffer show the same segments, whatever
    else differs between them; and the segments shown when a stream has
    ended are those of the whole text rendered from scratch, whatever the
    panel held before and however the text was cut into chunks, so nothing
    of the passes over the earlier prefixes is carried along. *)
Theorem render_depends_on_buffer_only :
  (forall content tree1 tree2,
     SimpleMarkdownRenderer content = tree1 ->
     SimpleMarkdownRenderer content = tree2 ->
     tree1 = tree2
     /\ segments content
        = match tree1 with Some children => omap id children | None => [] end)
  /\ (forall st1 st2 : GenState,
        output st1 = output st2 -> consoleView st1 = consoleView st2)
  /\ (forall env (r1 r2 : Run GenState) cs1 cs2,
        hasCredential env = true ->
        blank (description (comp r1)) = false ->
        blank (description (comp r2)) = false ->
        concat (chunkTexts cs1) = concat (chunkTexts cs2) ->
        consoleView
          (comp (snd (generateCode env
                        (Streaming (mkStream cs1 EndOfStream)) r1)))
        = consoleView
            (comp (snd (generateCode env
                          (Streaming (mkStream cs2 EndOfStream)) r2)))
        /\ consoleView
             (comp (snd (generateCode env
                           (Streaming (mkStream cs1 EndOfStream)) r1)))
           = segments (concat (chunkTexts cs1))).
Proof.
  repeat split.
  - congruence.
  - by subst.
  - intros st1 st2 H. unfold consoleView. by rewrite H.
  - rewrite !consoleView_streams by done. congruence.
  - by rewrite consoleView_streams.
Qed.

(** The text [a**b**c] delivered in one chunk after an earlier result, and
    in three chunks on a fresh panel. *)
Lemma render_depends_on_buffer_only_witness :
  let env := mkEnv (Some (lit "k")) None in
  let r1 := start (mkGen (lit "sort") (lit "C") false (Some (lit "old"))) in
  let r2 := start (mkGen (lit "swap") (lit "Go") false None) in
  let cs1 := [mkChunk (Some (lit "a**b**c"))] in
  let cs2 := [mkChunk (Some (lit "a*")); mkChunk None;
              mkChunk (Some (lit "*b**c"))] in
  consoleView
    (comp (snd (generateCode env (Streaming (mkStream cs1 EndOfStream)) r1)))
  = consoleView
      (comp (snd (generateCode env (Streaming (mkStream cs2 EndOfStream)) r2)))
  /\ consoleView
       (comp (snd (generateCode env
                     (Streaming (mkStream cs1 EndOfStream)) r1)))
     = segments (concat (chunkTexts cs1)).
Proof.
  apply (proj2 (proj2 render_depends_on_buffer_only)); reflexivity.
Defined.

(** The examples of the specification. *)
Example render_empty : segments (lit "") = [].
Proof. reflexivity. Qed.

Example render_bold :
  segments (lit "a**b**c")
  = [TextBlock [Span (lit "a"); Strong (lit "b"); Span (lit "c")]].
Proof. by vm_compute. Qed.

End RenderPasses.

(** * Further properties of the components *)

(** ** What the fence split keeps *)

Section FenceChunks.

Implicit Types (s p : jsstring) (ps : list jsstring).

Lemma includes_cons c s p :
  includes (c :: s) p = startsWith (c :: s) p || includes s p.
Proof. done. Qed.

(** The first chunk is a prefix of the input. *)
Lemma splitFence_head_prefix s :
  exists p ps rest, splitFence s = p :: ps /\ s = p ++ rest.
Proof.
  pose proof (joinFence_splitFence s) as Hjoin.
  destruct (splitFence s) as [|p [|q ps]] eqn:E.
  - by apply splitFence_nonempty in E.
  - exists p, [], []. simpl in Hjoin. by rewrite app_nil_r.
  - exists p, (q :: ps), (FENCE ++ joinFence (q :: ps)). done.
Qed.

Lemma startsWith_fence_inv s :
  startsWith s FENCE = true ->
  exists t, s = BACKTICK :: BACKTICK :: BACKTICK :: t.
Proof.
  unfold FENCE.
  destruct s as [|c1 [|c2 [|c3 t]]]; cbn [startsWith]; try done.
  - by rewrite andb_false_r.
  - by rewrite !andb_false_r.
  - rewrite andb_true_r.
    intros [E1 [E2 E3]%andb_prop]%andb_prop.
    apply N.eqb_eq in E1, E2, E3. subst. by exists t.
Qed.

Lemma splitFence_chunks_fence_free s p :
  p ∈ splitFence s -> includes p FENCE = false.
Proof.
  remember (length s) as n eqn:Hn.
  revert s Hn p. induction (lt_wf n) as [n _ IH]. intros s -> p.
  destruct s as [|c1 s1].
  { simpl. by intros ->%list_elem_of_singleton. }
  rewrite splitFence_step.
  assert (Helse : p ∈ consHead c1 (splitFence s1) ->
                  (forall t, c1 :: s1 <> BACKTICK :: BACKTICK :: BACKTICK :: t) ->
                  includes p FENCE = false).
  { intros Hp Hno.
    destruct (splitFence_head_prefix s1) as (q & qs & rest & Hq & Hs1).
    rewrite Hq in Hp. simpl in Hp.
    assert (Hall : forall x, x ∈ q :: qs -> includes x FENCE = false).
    { intros x Hx. apply (IH (length s1)) with (s := s1); simpl; try lia; try done.
      by rewrite Hq. }
    apply elem_of_cons in Hp as [->|Hp].
    - rewrite includes_cons. rewrite (Hall q) by left. rewrite orb_false_r.
      destruct (startsWith (c1 :: q) FENCE) eqn:Hsw; [|done].
      apply startsWith_fence_inv in Hsw as [t Ht].
      injection Ht as -> ->. exfalso. apply (Hno (t ++ rest)).
      by rewrite Hs1.
    - apply Hall. by right. }
  destruct s1 as [|c2 [|c3 s3]].
  - intros Hp. apply Helse; [done|]. intros t. discriminate.
  - intros Hp. apply Helse; [done|]. intros t. discriminate.
  - destruct (_ && _) eqn:E.
    + intros [->|Hp]%elem_of_cons; [done|].
      apply (IH (length s3)) with (s := s3); simpl; try lia; done.
    + intros Hp. apply Helse; [done|].
      intros t [= -> -> ->]. by rewrite !N.eqb_refl in E.
Qed.

(** X1. The fence split loses nothing but the fences: joining the chunks
    with the delimiter gives the input back, there is at least one chunk,
    and no chunk contains the delimiter. *)
Theorem fence_split_roundtrip s :
  joinFence (splitFence s) = s
  /\ splitFence s <> []
  /\ (forall p, p ∈ splitFence s -> includes p FENCE = false).
Proof.
  split; [apply joinFence_splitFence|].
  split; [apply splitFence_nonempty|].
  intros p. apply splitFence_chunks_fence_free.
Qed.

End FenceChunks.

(** ** What a prose chunk keeps *)

Section ProseText.

Implicit Types (s part span body : jsstring) (ps : list jsstring).

Lemma boldBody_prefix s body :
  boldBody s = Some body -> exists rest, s = body ++ MARK ++ rest.
Proof.
  revert body. induction s as [|c1 s1 IH]; intros body; [done|].
  cbn [boldBody]. destruct s1 as [|c2 s2]; [done|].
  destruct ((c1 =? ASTERISK) && (c2 =? ASTERISK)) eqn:E.
  - intros [= <-]. apply andb_prop in E as [E1 E2].
    apply N.eqb_eq in E1, E2. subst. by exists s2.
  - destruct (isLineTerminator c1); [done|].
    destruct (boldBody (c2 :: s2)) as [b|] eqn:Hb; [|done].
    intros [= <-]. destruct (IH b eq_refl) as [rest Hrest].
    exists rest. by rewrite Hrest.
Qed.

(** A match is a prefix of what it was matched against. *)
Lemma matchBold_prefix s m :
  matchBold s = Some m -> exists rest, s = m ++ rest.
Proof.
  destruct s as [|c1 [|c2 s2]]; cbn [matchBold]; try done.
  destruct ((c1 =? ASTERISK) && (c2 =? ASTERISK)) eqn:E; [|done].
  destruct (boldBody s2) as [body|] eqn:Hb; [|done].
  intros [= <-]. apply andb_prop in E as [E1 E2].
  apply N.eqb_eq in E1, E2. subst.
  destruct (boldBody_prefix _ _ Hb) as [rest ->].
  exists rest. unfold MARK. simpl. by rewrite <- !app_assoc.
Qed.

Lemma concat_consHead c ps :
  ps <> [] -> concat (consHead c ps) = c :: concat ps.
Proof. by destruct ps. Qed.

Lemma concat_splitBoldFrom skip s :
  concat (splitBoldFrom skip s) = drop skip s.
Proof.
  revert skip. induction s as [|c s IH]; intros skip.
  - by destruct skip.
  - rewrite splitBoldFrom_cons. destruct skip as [|k]; [|apply IH].
    destruct (matchBold (c :: s)) as [m|] eqn:E.
    + destruct (matchBold_prefix _ _ E) as [rest Hrest].
      destruct (matchBold_shape _ _ E) as [body ->].
      assert (Hs : c = ASTERISK /\ s = (ASTERISK :: body ++ MARK) ++ rest).
      { unfold MARK in Hrest at 1. simpl in Hrest. by injection Hrest. }
      destruct Hs as [-> Hs].
      assert (Hlen : (length (MARK ++ body ++ MARK) - 1)%nat
                     = length (ASTERISK :: body ++ MARK)).
      { unfold MARK at 1. simpl. lia. }
      cbn [concat]. rewrite IH, Hlen, app_nil_l. rewrite Hs at 1.
      rewrite drop_app_length. rewrite Hs. done.
    + rewrite concat_consHead by apply splitBoldFrom_nonempty.
      by rewrite IH.
Qed.

Lemma startsWith_mark_inv s :
  startsWith s MARK = true -> exists t, s = ASTERISK :: ASTERISK :: t.
Proof.
  unfold MARK. destruct s as [|c1 [|c2 t]]; cbn [startsWith]; try done.
  - by rewrite andb_false_r.
  - rewrite andb_true_r. intros [E1 E2]%andb_prop.
    apply N.eqb_eq in E1, E2. subst. by exists t.
Qed.

Lemma endsWith_mark_inv s :
  endsWith s MARK = true -> exists b, s = b ++ MARK.
Proof.
  unfold endsWith. change (reverse MARK) with MARK.
  intros [u Hu]%startsWith_mark_inv. exists (reverse u).
  rewrite <- (reverse_involutive s), Hu.
  by rewrite !reverse_cons, <- !app_assoc.
Qed.

Lemma withoutAsterisks_app s t :
  withoutAsterisks (s ++ t) = withoutAsterisks s ++ withoutAsterisks t.
Proof. apply filter_app. Qed.

Lemma withoutAsterisks_mark : withoutAsterisks MARK = [].
Proof. done. Qed.

(** The inline element made from a span shows the span, less asterisks. *)
Lemma renderSubPart_keeps span :
  withoutAsterisks (inlineText (renderSubPart span)) = withoutAsterisks span.
Proof.
  unfold renderSubPart. rewrite lit_mark.
  destruct (startsWith span MARK) eqn:Hs; [|done].
  destruct (endsWith span MARK) eqn:He; [|done]. cbn [andb inlineText].
  apply startsWith_mark_inv in Hs as [t ->].
  apply endsWith_mark_inv in He as [b Hb].
  destruct t as [|x [|y t]].
  - done.
  - assert (x = ASTERISK) as ->.
    { apply (f_equal reverse) in Hb. rewrite reverse_app in Hb.
      change (reverse MARK) with MARK in Hb.
      rewrite !reverse_cons in Hb. unfold MARK in Hb. simpl in Hb.
      by injection Hb. }
    by vm_compute.
  - destruct b as [|b1 [|b2 body]].
    + unfold MARK in Hb. by simplify_eq/=.
    + unfold MARK in Hb. by simplify_eq/=.
    + cbn [app] in Hb. injection Hb as <- <- Ht.
      rewrite Ht.
      change (ASTERISK :: ASTERISK :: body ++ MARK)
        with (MARK ++ body ++ MARK).
      rewrite slice_strip, !withoutAsterisks_app, withoutAsterisks_mark.
      by rewrite app_nil_r.
Qed.

Lemma proseText_keeps ps :
  withoutAsterisks (proseText (renderSubPart <$> ps))
  = withoutAsterisks (concat ps).
Proof.
  unfold proseText. induction ps as [|p ps IH]; [done|].
  cbn [fmap list_fmap concat]. rewrite !withoutAsterisks_app.
  by rewrite renderSubPart_keeps, <- IH.
Qed.

(** X2. Splitting a prose chunk on the bold pattern loses nothing: the
    spans, matches included, concatenate to the chunk. *)
Theorem bold_split_roundtrip part : concat (splitBold part) = part.
Proof. unfold splitBold. by rewrite concat_splitBoldFrom. Qed.

(** X3. A prose chunk that is not blank renders as one text block, whose
    spans show every code unit of the chunk other than asterisks, in the
    order of the chunk: only asterisks are ever dropped. *)
Theorem prose_block_keeps_text part :
  blank part = false ->
  exists children,
    renderText part = Some (TextBlock children)
    /\ withoutAsterisks (proseText children) = withoutAsterisks part.
Proof.
  intros Hb. exists (renderSubPart <$> splitBold part). split.
  - unfold renderText. by rewrite truthy_trim, Hb.
  - rewrite proseText_keeps. unfold splitBold.
    by rewrite concat_splitBoldFrom.
Qed.

Lemma prose_block_keeps_text_witness :
  exists children,
    renderText (lit "a **b** c***") = Some (TextBlock children)
    /\ withoutAsterisks (proseText children)
       = withoutAsterisks (lit "a **b** c***").
Proof.
  apply (prose_block_keeps_text (lit "a **b** c***")). reflexivity.
Defined.

End ProseText.

(** ** Plain and blank buffers *)

Section PlainText.

Implicit Types (s p content : jsstring).

Lemma startsWith_app p s : startsWith (p ++ s) p = true.
Proof.
  induction p as [|a p IH]; [done|]. cbn [app startsWith].
  by rewrite N.eqb_refl, IH.
Qed.

Lemma includes_middle s p t : includes (s ++ p ++ t) p = true.
Proof.
  induction s as [|c s IH].
  - destruct (p ++ t) eqn:E; cbn [app includes]; rewrite <- E;
      by rewrite startsWith_app.
  - cbn [app]. rewrite includes_cons, IH. apply orb_true_r.
Qed.

(** Without a fence the split returns the input as its only chunk. *)
Lemma splitFence_no_fence s : includes s FENCE = false -> splitFence s = [s].
Proof.
  intros Hno. pose proof (joinFence_splitFence s) as Hjoin.
  destruct (splitFence s) as [|p [|q ps]] eqn:E.
  - by apply splitFence_nonempty in E.
  - simpl in Hjoin. by subst.
  - change (joinFence (p :: q :: ps))
      with (p ++ FENCE ++ joinFence (q :: ps)) in Hjoin.
    rewrite <- Hjoin, includes_middle in Hno. done.
Qed.

Lemma matchBold_starts s m : matchBold s = Some m -> startsWith s MARK = true.
Proof.
  destruct s as [|c1 [|c2 s2]]; cbn [matchBold]; try done.
  destruct ((c1 =? ASTERISK) && (c2 =? ASTERISK)) eqn:E; [|done].
  intros _. apply andb_prop in E as [E1 E2].
  apply N.eqb_eq in E1, E2. by subst.
Qed.

(** Without two asterisks in a row the bold split returns the chunk as its
    only span. *)
Lemma splitBold_no_mark s : includes s MARK = false -> splitBold s = [s].
Proof.
  unfold splitBold. induction s as [|c s IH]; [done|].
  rewrite includes_cons. intros [Hs Hi]%orb_false_elim.
  rewrite splitBoldFrom_cons.
  destruct (matchBold (c :: s)) as [m|] eqn:E.
  - apply matchBold_starts in E. congruence.
  - by rewrite IH.
Qed.

Lemma includes_nil_r s : includes s MARK = false -> startsWith s MARK = false.
Proof. destruct s; [done|]. rewrite includes_cons. by intros [? ?]%orb_false_elim. Qed.

Lemma blank_no_fence s : blank s = true -> includes s FENCE = false.
Proof.
  induction s as [|c s IH]; [done|]. cbn [blank forallb].
  intros [Hc Hs]%andb_prop. rewrite includes_cons.
  rewrite (IH Hs), orb_false_r.
  destruct (startsWith (c :: s) FENCE) eqn:E; [|done].
  apply startsWith_fence_inv in E as [t [= -> _]]. done.
Qed.

Lemma segments_single content :
  content <> [] -> splitFence content = [content] ->
  segments content = omap id [renderText content].
Proof.
  intros Hne Hsplit. unfold segments, SimpleMarkdownRenderer.
  rewrite truthy_nonempty by done. by rewrite Hsplit.
Qed.

(** X4. A buffer that is not blank and holds neither a code fence nor two
    asterisks in a row is shown as one text block with one plain span, the
    buffer itself, white space and lone backticks and asterisks included. *)
Theorem plain_text_passthrough content :
  blank content = false ->
  includes content FENCE = false ->
  includes content MARK = false ->
  segments content = [TextBlock [Span content]].
Proof.
  intros Hb Hf Hm.
  assert (Hne : content <> []) by (by intros ->).
  rewrite segments_single by (done || by apply splitFence_no_fence).
  unfold renderText. rewrite truthy_trim, Hb. cbn [negb omap list_omap].
  rewrite splitBold_no_mark by done. cbn [fmap list_fmap].
  unfold renderSubPart. rewrite lit_mark, includes_nil_r by done. done.
Qed.

Lemma plain_text_passthrough_witness :
  segments (lit " use `x * y` here ")
  = [TextBlock [Span (lit " use `x * y` here ")]].
Proof.
  apply (plain_text_passthrough (lit " use `x * y` here ")); reflexivity.
Defined.

(** X5. The renderer shows nothing exactly when the buffer is blank: any
    buffer with a visible code unit or a fence yields at least one
    segment. *)
Theorem segments_empty_iff_blank content :
  segments content = [] <-> blank content = true.
Proof.
  split.
  - intros Hseg. destruct content as [|c content'] eqn:Ec; [done|].
    rewrite <- Ec in *. assert (Hne : content <> []) by (by subst).
    unfold segments, SimpleMarkdownRenderer in Hseg.
    rewrite truthy_nonempty in Hseg by done. cbn [negb] in Hseg.
    pose proof (joinFence_splitFence content) as Hjoin.
    destruct (splitFence content) as [|p [|q ps]] eqn:E.
    + by apply splitFence_nonempty in E.
    + simpl in Hjoin. subst p. cbn in Hseg.
      unfold renderText in Hseg. rewrite truthy_trim in Hseg.
      by destruct (blank content).
    + cbn in Hseg. by destruct (renderText p).
  - intros Hb. destruct content as [|c content'] eqn:Ec; [done|].
    rewrite <- Ec in *. assert (Hne : content <> []) by (by subst).
    rewrite segments_single
      by (done || by apply splitFence_no_fence, blank_no_fence).
    by rewrite renderText_blank.
Qed.

End PlainText.

(** ** Code blocks *)

Section CodeBlocks.

Implicit Types (s t part language : jsstring).

Lemma trimStart_suffix s : exists ws, s = ws ++ trimStart s.
Proof.
  induction s as [|c s [ws IH]]; [by exists []|]. cbn [trimStart].
  destruct (isWhiteSpace c).
  - exists (c :: ws). cbn [app]. by rewrite <- IH.
  - by exists [].
Qed.

Lemma trimStart_fixed c s : isWhiteSpace c = false -> trimStart (c :: s) = c :: s.
Proof. intros H. cbn [trimStart]. by rewrite H. Qed.

Lemma trimStart_idem s : trimStart (trimStart s) = trimStart s.
Proof.
  destruct (trimStart s) as [|c t] eqn:E; [done|].
  apply trimStart_fixed. by apply trimStart_head in E.
Qed.

(** [trim] leaves what it returns alone: the result has no white space at
    either end. *)
Lemma trim_idem s : trim (trim s) = trim s.
Proof.
  unfold trim, trimEnd.
  set (t := trimStart s). set (u := trimStart (reverse t)).
  assert (Hfix : trimStart (reverse u) = reverse u).
  { destruct (trimStart_suffix (reverse t)) as [ws Hws]. fold u in Hws.
    apply (f_equal reverse) in Hws.
    rewrite reverse_involutive, reverse_app in Hws.
    destruct (reverse u) as [|c v] eqn:Eu; [done|].
    apply trimStart_fixed. cbn [app] in Hws.
    apply (trimStart_head s c (v ++ reverse ws)). by fold t. }
  rewrite Hfix, reverse_involutive. unfold u. by rewrite trimStart_idem.
Qed.

Lemma trimmed_not_blank s : trim s = s -> s <> [] -> blank s = false.
Proof.
  intros Ht Hne. destruct (blank s) eqn:E; [|done].
  apply trim_blank in E. congruence.
Qed.

(** X6. The code block made from a chunk never carries white space at
    either end of its body or of its language tag, and the label shown in
    its header, [language || 'code'], is never blank. *)
Theorem code_block_is_trimmed part :
  exists language code,
    renderCode part = CodeBlock language code
    /\ trim language = language
    /\ trim code = code
    /\ blank (codeBlockLabel language) = false.
Proof.
  assert (Hlabel : forall l, trim l = l -> blank (codeBlockLabel l) = false).
  { intros l Hl. unfold codeBlockLabel. destruct (truthy l) eqn:El; [|done].
    apply trimmed_not_blank; [done|]. by apply truthy_true. }
  unfold renderCode. cbv zeta. destruct (negb _).
  - eexists _, _. split; [done|]. rewrite !trim_idem.
    split; [done|]. split; [done|]. apply Hlabel, trim_idem.
  - eexists _, _. split; [done|]. rewrite trim_idem.
    split; [done|]. split; [done|]. by apply Hlabel.
Qed.

End CodeBlocks.

(** ** Outcomes of a generation *)

Section GenerateOutcomes.

Implicit Types (env : ProcessEnv) (reply : Response) (r : Run GenState).

Lemma getGenAI_resolved {St} env key (r : Run St) :
  resolvedKey env = Some key ->
  getGenAI env r = (Normal (mkClient key), logged r (NewGoogleGenAI key)).
Proof.
  unfold resolvedKey. rewrite getGenAI_unfold.
  destruct (jsOr _ _) as [k|]; [|done].
  destruct (truthy k); [|done]. by intros [= ->].
Qed.

Lemma getGenAI_unresolved {St} env (r : Run St) :
  resolvedKey env = None ->
  getGenAI env r = (Throw (newError configErrorMessage), r).
Proof.
  unfold resolvedKey. rewrite getGenAI_unfold.
  destruct (jsOr _ _) as [k|]; [|done]. by destruct (truthy k).
Qed.

(** The [try] block with a credential: one client, one request, then the
    loop; a rejected request or a failing stream throws. *)
Lemma generateTry_resolved env key reply l d ld cl f :
  resolvedKey env = Some key ->
  generateTry env reply l d (mkRun (mkGen d l ld (Some [])) cl f)
  = let log := cl ++ [NewGoogleGenAI key;
                      GenerateContentStream MODEL (generatePrompt l d)] in
    match reply with
    | Rejected e => (Throw e, mkRun (mkGen d l ld (Some [])) log f)
    | Streaming s =>
        (match ending s with
         | EndOfStream => Normal tt
         | StreamThrows e => Throw e
         end,
         mkRun (mkGen d l ld (Some (concat (chunkTexts (chunks s))))) log f)
    end.
Proof.
  intros Hkey. unfold generateTry. unfold bind at 1.
  rewrite (getGenAI_resolved env key) by done.
  unfold generateContentStream, logCall, logged. unfold bind at 1 2.
  cbn [comp calls faulted]. rewrite <- app_assoc. cbn [app].
  destruct reply as [e|[cs fin]]; cbn [awaitResponse]; [done|].
  unfold ret at 1. unfold forAwait, bind. cbn [chunks ending].
  rewrite generate_loop. cbn [app]. by destruct fin.
Qed.

(** X7. With a credential and a description that is not blank, a stream
    that ends normally leaves the panel with the concatenation of the chunk
    texts as its result (the previous result is gone even when no chunk
    carries text), the loading flag cleared and the form fields untouched;
    the SDK was called exactly twice, to build the client from the resolved
    key and to issue one request, for the model [gemini-2.5-flash], whose
    instruction is the template below filled with the language and the
    description as they stand. *)
Theorem generate_success env key r cs :
  resolvedKey env = Some key ->
  blank (description (comp r)) = false ->
  generateCode env (Streaming (mkStream cs EndOfStream)) r
  = (Normal tt,
     mkRun (mkGen (description (comp r)) (language (comp r)) false
              (Some (concat (chunkTexts cs))))
           (calls r
            ++ [NewGoogleGenAI key;
                GenerateContentStream (lit "gemini-2.5-flash")
                  (lit "Act as an expert coding tutor for beginners.
      Task: Write a " ++ language (comp r) ++ lit " program that "
            ++ description (comp r) ++ lit ".
      
      STRICT REQUIREMENTS:
      1. SIMPLICITY IS PRIORITY: Use the absolute simplest logic and standard libraries. Avoid advanced concepts (like list comprehensions, heavy modularization, or external packages) unless strictly necessary.
      2. ZERO ERRORS: The code MUST be 100% correct, compilable, and runnable. Double-check syntax.
      3. LINE-BY-LINE COMMENTS: Add clear, simple comments to almost every line explaining what it does.
      4. EXPLANATION: After the code, explain the logic in plain English as if teaching a 10-year-old.
      5. FORMAT: Provide the code inside a markdown code block.")])
           (faulted r)).
Proof.
  intros Hkey Hd. rewrite generateCode_nonblank by done.
  unfold tryFinally, tryCatch.
  by rewrite (generateTry_resolved env key).
Qed.

Lemma generate_success_witness :
  generateCode (mkEnv None (Some (lit "g")))
    (Streaming (mkStream [mkChunk (Some (lit "ab")); mkChunk (Some []);
                          mkChunk None; mkChunk (Some (lit "c"))]
                  EndOfStream))
    (start (mkGen (lit "sort") (lit "C") false (Some (lit "old"))))
  = (Normal tt,
     mkRun (mkGen (lit "sort") (lit "C") false (Some (lit "abc")))
           [NewGoogleGenAI (lit "g");
            GenerateContentStream MODEL
              (generatePrompt (lit "C") (lit "sort"))]
           false).
Proof.
  apply (generate_success (mkEnv None (Some (lit "g"))) (lit "g")
           (start (mkGen (lit "sort") (lit "C") false (Some (lit "old"))))
           [mkChunk (Some (lit "ab")); mkChunk (Some []);
            mkChunk None; mkChunk (Some (lit "c"))]);
    reflexivity.
Defined.

(** X8. With a credential and a description that is not blank, when the
    request is rejected or the stream fails after any number of chunks with
    a value other than [null] and [undefined], the run completes normally
    with the result buffer replaced by the diagnostic below around the
    error message ([Unknown error] when the thrown value has none or an
    empty one): the text received before the failure is discarded. When the
    thrown value is [null] or [undefined], reading its message throws
    inside the [catch] block: the buffer keeps the text received so far and
    the TypeError escapes the handler. In both cases the flag is cleared
    and one request was issued. *)
Theorem generate_failure_replaces_output env key r reply thrown received :
  resolvedKey env = Some key ->
  blank (description (comp r)) = false ->
  (reply = Rejected thrown /\ received = [])
  \/ (exists cs, reply = Streaming (mkStream cs (StreamThrows thrown))
                 /\ received = concat (chunkTexts cs)) ->
  generateCode env reply r
  = (match thrown with
     | ThrownNullish n => Throw (readMessageError n)
     | ThrownValue _ => Normal tt
     end,
     mkRun (mkGen (description (comp r)) (language (comp r)) false
              (Some
                 match thrown with
                 | ThrownNullish _ => received
                 | ThrownValue e =>
                     lit "**CONFIGURATION ERROR**" ++ [LF; LF]
                     ++ orDefault (message e) (lit "Unknown error")
                     ++ [LF; LF] ++ lit "To fix this on Vercel:" ++ [LF]
                     ++ lit "1. Go to **Settings** > **Environment Variables**."
                     ++ [LF]
                     ++ lit "2. Add `API_KEY` or `GEMINI_API_KEY` with your Google Gemini API Key."
                     ++ [LF] ++ lit "3. Redeploy your project."
                 end))
           (calls r ++ [NewGoogleGenAI key;
                        GenerateContentStream MODEL
                          (generatePrompt (language (comp r))
                             (description (comp r)))])
           (faulted r)).
Proof.
  intros Hkey Hd Hfail. rewrite generateCode_nonblank by done.
  unfold tryFinally, tryCatch.
  rewrite (generateTry_resolved env key) by done.
  destruct Hfail as [[-> ->]|(cs & -> & ->)]; by destruct thrown.
Qed.

Lemma generate_failure_replaces_output_witness :
  generateCode (mkEnv (Some (lit "k")) None)
    (Streaming (mkStream [mkChunk (Some (lit "partial"))]
                  (StreamThrows (ThrownNullish JsUndefined))))
    (start (mkGen (lit "sort") (lit "C") false None))
  = (Throw (readMessageError JsUndefined),
     mkRun (mkGen (lit "sort") (lit "C") false (Some (lit "partial")))
           [NewGoogleGenAI (lit "k");
            GenerateContentStream MODEL
              (generatePrompt (lit "C") (lit "sort"))]
           false).
Proof.
  apply (generate_failure_replaces_output (mkEnv (Some (lit "k")) None)
           (lit "k")
           (start (mkGen (lit "sort") (lit "C") false None))
           (Streaming (mkStream [mkChunk (Some (lit "partial"))]
                         (StreamThrows (ThrownNullish JsUndefined))))
           (ThrownNullish JsUndefined) (lit "partial")).
  - reflexivity.
  - reflexivity.
  - right. by exists [mkChunk (Some (lit "partial"))].
Defined.

Lemma resolvedKey_cases env :
  (exists key, resolvedKey env = Some key /\ hasCredential env = true)
  \/ (resolvedKey env = None /\ hasCredential env = false).
Proof.
  unfold resolvedKey, hasCredential, jsOr.
  destruct env as [[[|c a]|] [[|d g]|]]; simpl; eauto.
Qed.

(** X9. Whatever the environment, the reply and the state of the panel,
    one run of [generateCode] terminates, only appends to the call log,
    issues at most one network request, and leaves the description and the
    language as they were. It completes normally unless the reply failed
    with [null] or [undefined]; then, and only past the guard and with a
    credential, the TypeError thrown in the [catch] block escapes. *)
Theorem generate_at_most_one_request env reply r :
  exists c r' new,
    generateCode env reply r = (c, r')
    /\ (c = Normal tt \/ exists n, c = Throw (readMessageError n))
    /\ (c = Normal tt <->
        failsNullish reply = false
        \/ blank (description (comp r)) = true
        \/ hasCredential env = false)
    /\ calls r' = calls r ++ new
    /\ (length (filter (fun c => isNetworkCall c = true) new) <= 1)%nat
    /\ description (comp r') = description (comp r)
    /\ language (comp r') = language (comp r)
    /\ faulted r' = faulted r.
Proof.
  destruct (blank (description (comp r))) eqn:Hd.
  { exists (Normal tt), r, []. rewrite generateCode_blank by done.
    rewrite app_nil_r. repeat split; simpl; eauto; lia. }
  rewrite generateCode_nonblank by done. unfold tryFinally, tryCatch.
  destruct (resolvedKey_cases env) as [(key & Hkey & Hc)|[_ Hno]].
  - rewrite (generateTry_resolved env key) by done. cbv zeta. rewrite Hc.
    destruct reply as [[n|e]|[cs [|[n|e]]]]; cbn;
      eexists _, _, _; (split; [reflexivity|]); cbn;
      (split; [by eauto|]);
      (split; [split; [by eauto|intros [?|[?|?]]; done]|]);
      repeat split; cbn; first [done | lia].
  - rewrite generateTry_missing by done. cbn.
    eexists _, _, []. split; [reflexivity|]. rewrite app_nil_r.
    repeat split; cbn; eauto; lia.
Qed.

(** X10. The output console always shows exactly one thing: the placeholder
    with the suggestions while there is no text and no run, the bouncing
    dots while a run has produced no text yet, and the rendered tree as soon
    as the buffer is not empty. *)
Theorem console_shows_one_part (st : GenState) :
  paneCount (consolePane st) = 1%nat
  /\ (placeholderShown (consolePane st) = true <->
      truthyOpt (output st) = false /\ loading st = false)
  /\ (dotsShown (consolePane st) = true <->
      truthyOpt (output st) = false /\ loading st = true)
  /\ (is_Some (tree (consolePane st)) <-> truthyOpt (output st) = true).
Proof.
  unfold paneCount, consolePane, SimpleMarkdownRenderer.
  destruct st as [d l [|] [[|c o]|]]; cbn;
    repeat split; try done; try (intros [? ?]; done);
    try (intros [? [=]]); eauto.
Qed.

End GenerateOutcomes.

(** ** Outcomes of a send *)

Section SendOutcomes.

Implicit Types (env : ProcessEnv) (reply : Response) (r : Run ChatState).

(** The [try] block with a session at hand: no look at the environment,
    one request, then the entry of the turn and the loop. *)
Lemma sendTry_with_session env reply userMsg ms i ty sess cl f :
  sendTry env reply userMsg (mkRun (mkChat ms i ty (Some sess)) cl f)
  = match reply with
    | Rejected e =>
        (Throw e,
         mkRun (mkChat ms i ty (Some sess))
               (cl ++ [SendMessageStream userMsg]) f)
    | Streaming s =>
        (match ending s with
         | EndOfStream => Normal tt
         | StreamThrows e => Throw e
         end,
         mkRun (mkChat (ms ++ [mkEntry model (concat (chunkTexts (chunks s)))])
                  i ty (Some sess))
               (cl ++ [SendMessageStream userMsg]) f)
    end.
Proof.
  unfold sendTry. unfold bind at 1. unfold gets at 1.
  cbn [comp chatSessionRef]. rewrite bool_decide_eq_true_2 by eauto.
  cbn [negb]. unfold bind at 1. unfold ret at 1.
  unfold bind at 1. unfold gets at 1. cbn [comp chatSessionRef].
  unfold sendMessageStream, logCall. unfold bind at 1 2.
  cbn [comp calls faulted].
  destruct reply as [e|[cs fin]]; cbn [awaitResponse]; [done|].
  unfold ret at 1. unfold setMessages, appendEntry. unfold bind at 1.
  cbn [comp calls faulted messages input isTyping chatSessionRef].
  unfold forAwait, bind. cbn [chunks ending].
  rewrite (chat_loop cs [] ms model). cbn [app]. by destruct fin.
Qed.

Lemma sendMessage_with_session env reply r sess :
  blank (input (comp r)) = false ->
  chatSessionRef (comp r) = Some sess ->
  sendMessage env reply r
  = (caughtCompletion (thrownBy reply),
     mkRun (mkChat
              (messages (comp r)
               ++ mkEntry user (input (comp r))
                  :: match reply with
                     | Rejected _ => []
                     | Streaming s =>
                         [mkEntry model (concat (chunkTexts (chunks s)))]
                     end
                  ++ from_option caughtEntries [] (thrownBy reply))
              [] false (Some sess))
           (calls r ++ [SendMessageStream (input (comp r))])
           (faulted r)).
Proof.
  intros Hin Hs. rewrite sendMessage_nonblank by done. rewrite Hs.
  unfold tryFinally, tryCatch. rewrite sendTry_with_session.
  destruct reply as [[n|e]|[cs [|[n|e]]]]; cbn; by rewrite <- ?app_assoc.
Qed.

(** X11. With a session at hand, a send past the guard whose request is
    rejected does not consult the environment and keeps the session; it
    logs exactly one SDK call, the request, which carries the input as
    typed (not trimmed); it empties the input and clears the typing flag.
    For a thrown value other than [null] and [undefined] it completes
    normally and the transcript gains the user entry and one diagnostic
    entry, with the text below around the error message ([Unknown error]
    when there is none or an empty one), and no empty model entry. For a
    thrown [null] or [undefined], reading the message throws inside the
    [catch] block: only the user entry is added and the TypeError escapes
    the handler. *)
Theorem send_rejected_with_session env r sess thrown :
  blank (input (comp r)) = false ->
  chatSessionRef (comp r) = Some sess ->
  sendMessage env (Rejected thrown) r
  = (match thrown with
     | ThrownNullish n => Throw (readMessageError n)
     | ThrownValue _ => Normal tt
     end,
     mkRun (mkChat
              (messages (comp r)
               ++ mkEntry user (input (comp r))
                  :: match thrown with
                     | ThrownNullish _ => []
                     | ThrownValue e =>
                         [mkEntry model
                            (lit "**CONFIGURATION ERROR**: "
                             ++ orDefault (message e) (lit "Unknown error")
                             ++ lit ". Please check Vercel settings.")]
                     end)
              [] false (Some sess))
           (calls r ++ [SendMessageStream (input (comp r))])
           (faulted r)).
Proof.
  intros Hin Hs. rewrite (sendMessage_with_session env _ r sess) by done.
  by destruct thrown.
Qed.

Lemma send_rejected_with_session_witness :
  sendMessage (mkEnv None None) (Rejected (mkError (Some (lit "offline"))))
    (start (mkChat [] (lit " hi ") false
              (Some (mkSession (lit "k") MODEL CHAT_SYSTEM_PROMPT))))
  = (Normal tt,
     mkRun (mkChat
              [mkEntry user (lit " hi ");
               mkEntry model
                 (lit "**CONFIGURATION ERROR**: offline. Please check Vercel settings.")]
              [] false
              (Some (mkSession (lit "k") MODEL CHAT_SYSTEM_PROMPT)))
           [SendMessageStream (lit " hi ")]
           false).
Proof.
  apply (send_rejected_with_session (mkEnv None None)
           (start (mkChat [] (lit " hi ") false
                     (Some (mkSession (lit "k") MODEL CHAT_SYSTEM_PROMPT))))
           (mkSession (lit "k") MODEL CHAT_SYSTEM_PROMPT)
           (ThrownValue (mkError (Some (lit "offline")))));
    reflexivity.
Defined.

End SendOutcomes.

(** ** The transcript and the session over time *)

Section ChatHistory.

Implicit Types (env : ProcessEnv) (reply : Response) (r : Run ChatState).

Lemma initChat_resolved env key ms i ty se cl f :
  resolvedKey env = Some key ->
  initChat env (mkRun (mkChat ms i ty se) cl f)
  = (Normal true,
     mkRun (mkChat ms i ty (Some (mkSession key MODEL CHAT_SYSTEM_PROMPT)))
           (cl ++ [NewGoogleGenAI key; ChatsCreate MODEL CHAT_SYSTEM_PROMPT])
           f).
Proof.
  intros Hkey. unfold initChat, tryCatch. unfold bind at 1.
  rewrite (getGenAI_resolved env key) by done.
  unfold chatsCreate, logCall, logged, bind, ret, setChatSession, modify.
  cbn [comp calls faulted messages input isTyping].
  by rewrite <- app_assoc.
Qed.

(** With no session yet and a credential, the [try] block first builds the
    session, then proceeds as with a session at hand. *)
Lemma sendTry_lazy env key reply userMsg ms i ty cl f :
  resolvedKey env = Some key ->
  sendTry env reply userMsg (mkRun (mkChat ms i ty None) cl f)
  = sendTry env reply userMsg
      (mkRun (mkChat ms i ty (Some (mkSession key MODEL CHAT_SYSTEM_PROMPT)))
             (cl ++ [NewGoogleGenAI key; ChatsCreate MODEL CHAT_SYSTEM_PROMPT])
             f).
Proof.
  intros Hkey. rewrite sendTry_with_session.
  unfold sendTry. unfold bind at 1. unfold gets at 1.
  cbn [comp chatSessionRef].
  rewrite bool_decide_eq_false_2 by by intros [? [=]].
  cbn [negb]. unfold bind at 1 2.
  rewrite (initChat_resolved env key) by done. cbn [negb].
  unfold ret at 1. unfold bind at 1. unfold gets at 1.
  cbn [comp chatSessionRef].
  unfold sendMessageStream, logCall. unfold bind at 1 2.
  cbn [comp calls faulted].
  destruct reply as [e|[cs fin]]; cbn [awaitResponse]; [done|].
  unfold ret at 1. unfold setMessages, appendEntry. unfold bind at 1.
  cbn [comp calls faulted messages input isTyping chatSessionRef].
  unfold forAwait, bind. cbn [chunks ending].
  rewrite (chat_loop cs [] ms model). cbn [app]. by destruct fin.
Qed.

(** X12. Whatever the environment, the reply and the state of the panel,
    one run of [sendMessage] terminates and never faults inside a state
    updater; it only appends to the transcript and to the call log, and
    issues at most one network request. It completes normally unless the
    reply failed with [null] or [undefined], when the TypeError thrown in
    the [catch] block escapes. Stopped by the guard it appends nothing;
    past the guard it appends the user entry with the input as typed,
    followed by at most two model entries, and by at least one when it
    completes normally. *)
Theorem send_only_appends env reply r :
  exists c r' tail new,
    sendMessage env reply r = (c, r')
    /\ (c = Normal tt \/ exists n, c = Throw (readMessageError n))
    /\ (failsNullish reply = false -> c = Normal tt)
    /\ messages (comp r') = messages (comp r) ++ tail
    /\ calls r' = calls r ++ new
    /\ faulted r' = faulted r
    /\ (length (filter (fun c => isNetworkCall c = true) new) <= 1)%nat
    /\ (if blank (input (comp r)) then tail = [] /\ new = []
        else exists answers,
               tail = mkEntry user (input (comp r)) :: answers
               /\ (length answers <= 2)%nat
               /\ (c = Normal tt -> (1 <= length answers)%nat)
               /\ Forall (fun e => role e = model) answers).
Proof.
  destruct (blank (input (comp r))) eqn:Hin.
  { exists (Normal tt), r, [], []. rewrite sendMessage_blank by done.
    rewrite !app_nil_r. repeat split; simpl; eauto; lia. }
  destruct r as [[ms i ty se] cl f]. cbn [comp input] in Hin.
  assert (Hsess : forall cl0 sess,
    exists c r' tail new,
      tryFinally (tryCatch (sendTry env reply i) sendCatch)
        (setIsTyping false)
        (mkRun (mkChat (ms ++ [mkEntry user i]) [] true (Some sess))
               (cl ++ cl0) f)
      = (c, r')
      /\ (c = Normal tt \/ exists n, c = Throw (readMessageError n))
      /\ (failsNullish reply = false -> c = Normal tt)
      /\ messages (comp r') = ms ++ tail
      /\ calls r' = cl ++ cl0 ++ new
      /\ faulted r' = f
      /\ (length (filter (fun c => isNetworkCall c = true) new) <= 1)%nat
      /\ exists answers,
           tail = mkEntry user i :: answers
           /\ (length answers <= 2)%nat
           /\ (c = Normal tt -> (1 <= length answers)%nat)
           /\ Forall (fun e => role e = model) answers).
  { intros cl0 sess. unfold tryFinally, tryCatch.
    rewrite sendTry_with_session.
    destruct reply as [[n|e]|[cs [|[n|e]]]]; cbn;
      eexists _, _, _, [SendMessageStream i];
      (split; [reflexivity|]); cbn;
      rewrite <- ?app_assoc; cbn;
      (split; [by eauto|]); (split; [done|]);
      (split; [reflexivity|]); (split; [reflexivity|]);
      (split; [reflexivity|]); (split; [vm_compute; lia|]);
      eexists; (split; [reflexivity|]); cbn; (split; [lia|]);
      (split; [intros; first [done | lia]|]);
      repeat constructor. }
  destruct se as [sess|].
  - rewrite sendMessage_nonblank by done.
    cbn [comp messages input chatSessionRef calls faulted].
    destruct (Hsess [] sess) as (c & r' & tail & new & H).
    rewrite app_nil_r in H. exists c, r', tail, new.
    destruct H as (-> & ? & ? & ? & ? & ? & ? & ?). done.
  - destruct (resolvedKey_cases env) as [(key & Hkey & _)|[_ Hno]].
    + rewrite sendMessage_nonblank by done.
      cbn [comp messages input chatSessionRef calls faulted].
      unfold tryFinally, tryCatch.
      rewrite (sendTry_lazy env key) by done.
      destruct (Hsess [NewGoogleGenAI key;
                       ChatsCreate MODEL CHAT_SYSTEM_PROMPT]
                      (mkSession key MODEL CHAT_SYSTEM_PROMPT))
        as (c & r' & tail & new & H & Hc1 & Hc2 & Hm & Hc & Hf & Hn & Ha).
      unfold tryFinally, tryCatch in H. rewrite H.
      exists c, r', tail,
        ([NewGoogleGenAI key; ChatsCreate MODEL CHAT_SYSTEM_PROMPT] ++ new).
      repeat split; try done.
      all: revert Hn; rewrite filter_app; cbn; done.
    + rewrite sendMessage_missing by done.
      cbn [comp messages input chatSessionRef calls faulted].
      exists (Normal tt),
        (mkRun (mkChat
                  (ms ++ [mkEntry user i;
                          mkEntry model
                            (chatDiagnostic missingKeyMessage)])
                  [] false None) cl f),
        [mkEntry user i; mkEntry model (chatDiagnostic missingKeyMessage)],
        [].
      rewrite app_nil_r. repeat split; cbn; eauto; try lia.
      exists [mkEntry model (chatDiagnostic missingKeyMessage)].
      repeat split; cbn; try lia. by repeat constructor.
Qed.

End ChatHistory.

(** ** The chat panel between actions *)

Section ChatInvariant.

Implicit Types (env : ProcessEnv) (reply : Response) (r : Run ChatState).

Lemma hasCredential_resolved env :
  hasCredential env = true -> exists key, resolvedKey env = Some key.
Proof.
  intros H. destruct (resolvedKey_cases env) as [(key & Hkey & _)|[_ Hno]];
    [eauto|congruence].
Qed.

Lemma hasCredential_unresolved env :
  hasCredential env = false -> resolvedKey env = None.
Proof.
  intros H. destruct (resolvedKey_cases env) as [(key & _ & Hyes)|[Hno _]];
    [congruence|done].
Qed.

Lemma chatInvariant_mount env :
  chatInvariant env (snd (mountChat env (start initialChat))).
Proof.
  unfold mountChat, bind, chatInvariant.
  destruct (hasCredential env) eqn:Hc.
  - destruct (hasCredential_resolved env Hc) as [key Hkey].
    unfold start, initialChat. rewrite (initChat_resolved env key) by done.
    rewrite Hkey. cbn. repeat split; done.
  - rewrite initChat_missing by done.
    rewrite (hasCredential_unresolved env Hc). cbn. repeat split; done.
Qed.

Lemma sendMessage_last env reply r :
  chatInvariant env r ->
  failsNullish reply = false ->
  role <$> last (messages (comp r)) <> Some user ->
  role <$> last (messages (comp (snd (sendMessage env reply r))))
  <> Some user.
Proof.
  intros Hinv Hok Hlast. destruct (blank (input (comp r))) eqn:Hin.
  { by rewrite sendMessage_blank. }
  destruct Hinv as (Hty & Hf & Hs & Hcount & Hsent).
  destruct (hasCredential env) eqn:Hc.
  - destruct (hasCredential_resolved env Hc) as [key Hkey].
    rewrite Hkey in Hs. cbn in Hs.
    rewrite (sendMessage_with_session env reply r _ Hin Hs).
    cbn [snd comp messages]. rewrite last_app.
    unfold failsNullish in Hok.
    by destruct reply as [[n|e]|[cs [|[n|e]]]].
  - rewrite (hasCredential_unresolved env Hc) in Hs. cbn in Hs.
    rewrite sendMessage_missing by done.
    cbn [snd comp messages]. by rewrite last_app.
Qed.

Lemma chatInvariant_send env reply r :
  chatInvariant env r -> chatInvariant env (snd (sendMessage env reply r)).
Proof.
  intros Hinv. destruct (blank (input (comp r))) eqn:Hin.
  { by rewrite sendMessage_blank. }
  destruct Hinv as (Hty & Hf & Hs & Hcount & Hsent).
  destruct (hasCredential env) eqn:Hc.
  - destruct (hasCredential_resolved env Hc) as [key Hkey].
    rewrite Hkey in Hs. cbn in Hs.
    rewrite (sendMessage_with_session env reply r _ Hin Hs).
    unfold chatInvariant. rewrite Hc, Hkey.
    cbn [snd comp calls faulted messages input isTyping chatSessionRef].
    split; [done|]. split; [done|]. split; [done|]. split.
    + rewrite filter_app, length_app, Hcount. done.
    + intros _. unfold sentMessages, userTexts.
      rewrite !omap_app. fold (sentMessages (calls r)).
      fold (userTexts (messages (comp r))). rewrite Hsent by done.
      f_equal. by destruct reply as [[n|e]|[cs [|[n|e]]]].
  - rewrite (hasCredential_unresolved env Hc) in Hs. cbn in Hs.
    rewrite sendMessage_missing by done.
    unfold chatInvariant. rewrite Hc, (hasCredential_unresolved env Hc).
    cbn [snd comp calls faulted messages input isTyping chatSessionRef].
    done.
Qed.

Lemma chatInvariant_step env r a :
  chatInvariant env r -> chatInvariant env (stepChat env r a).
Proof.
  intros Hinv. unfold stepChat. destruct a as [s|reply|reply]; cbn.
  - exact Hinv.
  - unfold clickSend. destruct (sendDisabled (comp r)); [done|].
    by apply chatInvariant_send.
  - by apply chatInvariant_send.
Qed.

Lemma chatInvariant_history env history :
  chatInvariant env (chatAfter env history).
Proof.
  unfold chatAfter. induction history as [|a history IH] using rev_ind.
  - apply chatInvariant_mount.
  - rewrite foldl_snoc. by apply chatInvariant_step.
Qed.

(** X13. After its mount and any history of typing, clicks on the send
    button and Enter keys, each run to completion, the chat panel is at
    rest: the typing flag is off and no updater has faulted; its session is
    the one built from the resolved credential, and none without a
    credential; the session was created exactly once with a credential and
    never without; and with a credential the requests sent are exactly the
    user entries of the transcript, in order and as typed. When no send of
    the history got a reply that failed with [null] or [undefined], the
    transcript does not end with a user entry either. *)
Theorem chat_panel_at_rest env history :
  chatInvariant env (chatAfter env history)
  /\ (historyNullish history = false ->
      role <$> last (messages (comp (chatAfter env history))) <> Some user).
Proof.
  split; [apply chatInvariant_history|].
  induction history as [|a history IH] using rev_ind.
  - intros _. unfold chatAfter, mountChat, bind.
    destruct (initChat_normal env (start initialChat)) as (b & r' & Hinit).
    cbn [foldl]. rewrite Hinit. cbn [snd].
    destruct (hasCredential env) eqn:Hc.
    + destruct (hasCredential_resolved env Hc) as [key Hkey].
      unfold start, initialChat in Hinit.
      rewrite (initChat_resolved env key) in Hinit by done.
      by injection Hinit as <- <-.
    + rewrite initChat_missing in Hinit by done. by injection Hinit as <- <-.
  - unfold historyNullish. rewrite existsb_app. cbn [existsb].
    rewrite orb_false_r. intros [Hh Ha]%orb_false_elim.
    pose proof (chatInvariant_history env history) as Hinv.
    specialize (IH Hh). unfold chatAfter in *. rewrite foldl_snoc.
    set (r := foldl (stepChat env) (snd (mountChat env (start initialChat)))
                history) in *.
    unfold stepChat. destruct a as [s|reply|reply]; cbn.
    + exact IH.
    + unfold clickSend. destruct (sendDisabled (comp r)); [done|].
      by apply sendMessage_last.
    + by apply sendMessage_last.
Qed.

Lemma chat_panel_at_rest_witness :
  role <$> last (messages (comp (chatAfter (mkEnv (Some (lit "k")) None)
        [TypeInput (lit "hi");
         PressEnter (Rejected (mkError (Some (lit "offline"))))])))
  <> Some user.
Proof.
  apply (proj2 (chat_panel_at_rest (mkEnv (Some (lit "k")) None)
           [TypeInput (lit "hi");
            PressEnter (Rejected (mkError (Some (lit "offline"))))])).
  reflexivity.
Defined.

End ChatInvariant.

(** ** The copy button *)

Section CopyButton.

Implicit Types (st : CopyState) (events : list CopyEvent).

Lemma copyStep_armed st ev :
  (copied st = true -> (0 < timers st)%nat) ->
  copied (copyStep st ev) = true -> (0 < timers (copyStep st ev))%nat.
Proof.
  intros Hinv. destruct ev; cbn.
  - lia.
  - exact Hinv.
  - destruct (timers st) as [|n] eqn:E; cbn; [by rewrite E in *|done].
Qed.

Lemma fire_all n st :
  timers st = n -> (copied st = true -> (0 < n)%nat) ->
  foldl copyStep st (replicate n TimerFires) = mkCopy false 0
  \/ (n = 0%nat /\ foldl copyStep st (replicate n TimerFires) = st
      /\ copied st = false).
Proof.
  revert st. induction n as [|n IH]; intros st Ht Hinv.
  - right. cbn. repeat split. destruct (copied st); [|done].
    specialize (Hinv eq_refl). lia.
  - left. cbn [replicate foldl]. unfold copyStep at 2. rewrite Ht.
    destruct (IH (mkCopy false n)) as [H|(-> & H & _)]; cbn; try done.
Qed.

(** X14. Whatever the order in which clipboard promises resolve or reject
    and timers fire, the copied indicator is on only while a timer that
    clears it is still armed; hence once every armed timer has fired the
    indicator is off, and a rejected clipboard write never turns it on. *)
Theorem copied_indicator_always_reverts events :
  let st := foldl copyStep initialCopy events in
  (copied st = true -> (0 < timers st)%nat)
  /\ copied (foldl copyStep st (replicate (timers st) TimerFires)) = false
  /\ copyStep st ClipboardRejects = st.
Proof.
  cbv zeta.
  assert (Hinv : copied (foldl copyStep initialCopy events) = true ->
                 (0 < timers (foldl copyStep initialCopy events))%nat).
  { induction events as [|ev events IH] using rev_ind; [done|].
    rewrite foldl_snoc. by apply copyStep_armed. }
  split; [exact Hinv|]. split; [|done].
  destruct (fire_all _ _ eq_refl Hinv) as [->|(_ & -> & H)]; done.
Qed.

End CopyButton.

(** ** The result buffer while a generation streams *)

Section GenerateStreaming.

Implicit Types (cs : list Chunk).

Lemma concat_take_prefix (texts : list jsstring) k :
  exists rest, concat texts = concat (take k texts) ++ rest.
Proof.
  exists (concat (drop k texts)).
  by rewrite <- concat_app, take_drop.
Qed.

(** X15. While a generation streams, after the first [k] chunks the result
    buffer is the concatenation of their texts (a chunk with no text or an
    empty text changes nothing) and nothing else of the panel has changed;
    so every text shown on the way is a prefix of the final one: the
    console only grows by appending. *)
Theorem generate_buffer_grows cs k d l ld cl f :
  forAwaitChunks generateChunk (take k cs) []
    (mkRun (mkGen d l ld (Some [])) cl f)
  = (Normal (concat (take k (chunkTexts cs))),
     mkRun (mkGen d l ld (Some (concat (take k (chunkTexts cs))))) cl f)
  /\ exists rest,
       concat (chunkTexts cs) = concat (take k (chunkTexts cs)) ++ rest.
Proof.
  split; [|apply concat_take_prefix].
  rewrite generate_loop. unfold chunkTexts. by rewrite fmap_take.
Qed.

End GenerateStreaming.

(** ** The send button and the Enter key *)

Section SendGate.

Implicit Types (env : ProcessEnv) (reply : Response) (r : Run ChatState).

(** X16. While the typing flag is set the send button does nothing, but the
    Enter key is not gated: with an input that is not blank and a session
    at hand it issues a further request for that input. *)
Theorem enter_key_not_gated env reply r sess :
  isTyping (comp r) = true ->
  blank (input (comp r)) = false ->
  chatSessionRef (comp r) = Some sess ->
  clickSend env reply r = (Normal tt, r)
  /\ calls (snd (pressEnter env reply r))
     = calls r ++ [SendMessageStream (input (comp r))].
Proof.
  intros Hty Hin Hs. split.
  - unfold clickSend, sendDisabled. rewrite Hty. by rewrite orb_true_r.
  - unfold pressEnter.
    by rewrite (sendMessage_with_session env reply r sess).
Qed.

Lemma enter_key_not_gated_witness :
  let r := mkRun (mkChat [mkEntry user (lit "hi")] (lit "more") true
                    (Some (mkSession (lit "k") MODEL CHAT_SYSTEM_PROMPT)))
                 [SendMessageStream (lit "hi")] false in
  let reply := Streaming (mkStream [] EndOfStream) in
  clickSend (mkEnv (Some (lit "k")) None) reply r = (Normal tt, r)
  /\ calls (snd (pressEnter (mkEnv (Some (lit "k")) None) reply r))
     = calls r ++ [SendMessageStream (input (comp r))].
Proof.
  apply (enter_key_not_gated (mkEnv (Some (lit "k")) None)
           (Streaming (mkStream [] EndOfStream))
           (mkRun (mkChat [mkEntry user (lit "hi")] (lit "more") true
                     (Some (mkSession (lit "k") MODEL CHAT_SYSTEM_PROMPT)))
                  [SendMessageStream (lit "hi")] false)
           (mkSession (lit "k") MODEL CHAT_SYSTEM_PROMPT));
    reflexivity.
Defined.

End SendGate.

(** ** Instances *)

Lemma fence_split_roundtrip_witness : includes (lit "py") FENCE = false.
Proof.
  apply (proj2 (proj2 (fence_split_roundtrip (lit "x```py")))).
  apply list_elem_of_In. vm_compute. right. by left.
Defined.

Lemma segments_empty_iff_blank_witness : segments [32; 10; 9] = [].
Proof.
  apply (proj2 (segments_empty_iff_blank [32; 10; 9])). reflexivity.
Defined.

Lemma console_shows_one_part_witness :
  dotsShown (consolePane (mkGen (lit "sort") (lit "C") true (Some [])))
  = true.
Proof.
  apply (proj1 (proj2 (proj2
           (console_shows_one_part
              (mkGen (lit "sort") (lit "C") true (Some [])))))).
  split; reflexivity.
Defined.

Lemma copied_indicator_always_reverts_witness :
  (0 < timers (foldl copyStep initialCopy
                 [ClipboardResolves; TimerFires; ClipboardResolves;
                  ClipboardRejects]))%nat.
Proof.
  apply (proj1 (copied_indicator_always_reverts
                  [ClipboardResolves; TimerFires; ClipboardResolves;
                   ClipboardRejects])).
  reflexivity.
Defined.
